(** * A shallow embedding of the dersp relay: the frame codec ([codec] crate),
    the frame types of [proto/data.rs], the connection worker of
    [client.rs] and the routing service of [service.rs]. *)

From Stdlib Require Import ZArith Lia.
From stdpp Require Import base gmap list strings.

Open Scope Z_scope.

(** ** Results and errors *)

(** Rust's [Result<T, E>]. *)
Inductive result (A E : Type) : Type :=
| Ok (a : A)
| Err (e : E).
Arguments Ok {A E} a.
Arguments Err {A E} e.

(** The [?] operator. *)
Definition rbind {A B E} (r : result A E) (f : A -> result B E) : result B E :=
  match r with Ok a => f a | Err e => Err e end.

Notation "'let?' p ':=' r 'in' k" := (rbind r (fun x => match x with p => k end))
  (at level 200, p pattern, r at level 100, k at level 200).

(** [codec::decode::DecodeError]. *)
Inductive DecodeError := DecodeErr.

(** ** The codec crate *)

Module Codec.

(** A byte is a [u8]: a [Z] in [0, 256). A read buffer [&[u8]] is the list
    of its bytes; decoders return the decoded value and the rest of the
    buffer, as [decode] does by advancing [&mut &[u8]]. *)
Abbreviation bytes := (list Z).

(** [impl ReadBuffer for &[u8]]: [fill_buf]. *)
Definition fill_buf (size : nat) (rb : bytes) : result (bytes * bytes) DecodeError :=
  if (length rb <? size)%nat then Err DecodeErr
  else Ok (take size rb, drop size rb).

(** [impl Decode for u8]. *)
Definition decode_u8 (rb : bytes) : result (Z * bytes) DecodeError :=
  let? (buf, rest) := fill_buf 1 rb in
  Ok (default 0 (head buf), rest).

(** [impl Decode for u32]: big endian. *)
Definition u32_of_be (buf : bytes) : Z :=
  match buf with
  | [b0; b1; b2; b3] =>
      Z.shiftl b0 24 + Z.shiftl b1 16 + Z.shiftl b2 8 + b3
  | _ => 0
  end.

Definition decode_u32 (rb : bytes) : result (Z * bytes) DecodeError :=
  let? (buf, rest) := fill_buf 4 rb in
  Ok (u32_of_be buf, rest).

(** [impl<const SIZE: usize> Decode for [u8; SIZE]]. *)
Definition decode_array (size : nat) (rb : bytes) : result (bytes * bytes) DecodeError :=
  fill_buf size rb.

(** [impl<T: Decode> Decode for Vec<T>] at [T = u8]: decode bytes while the
    buffer is not empty ([decode_u8] on [_ :: tl] leaves [tl]). *)
Fixpoint decode_vec_u8 (rb : bytes) : result (bytes * bytes) DecodeError :=
  match rb with
  | [] => Ok ([], [])
  | _ :: tl =>
      let? (b, _) := decode_u8 rb in
      let? (v, rest) := decode_vec_u8 tl in
      Ok (b :: v, rest)
  end.

(** [impl Decode for SizeWrapper<u32, T>]: read the size, bound a sub-slice
    of that size, decode [T] from it and require the sub-slice to be used up.
    The [try_into] of a [u32] into a 64-bit [usize] always succeeds. *)
Definition decode_size_wrapper {T} (dec : bytes -> result (T * bytes) DecodeError)
    (rb : bytes) : result (T * bytes) DecodeError :=
  let? (size, rb1) := decode_u32 rb in
  let? (left_, rest) := fill_buf (Z.to_nat size) rb1 in
  let? (value, left') := dec left_ in
  match left' with
  | [] => Ok (value, rest)
  | _ :: _ => Err DecodeErr
  end.

(** [u32::to_be_bytes]. *)
Definition u32_to_be_bytes (n : Z) : bytes :=
  [Z.land (Z.shiftr n 24) 255; Z.land (Z.shiftr n 16) 255;
   Z.land (Z.shiftr n 8) 255; Z.land n 255].

(** [impl Encode for SizeWrapper<u32, T>] writing into a [Vec<u8>]: reserve
    four bytes, encode the inner value, then backpatch
    [u32::try_from(total).unwrap()]. The [unwrap] panics (here [None]) when
    the inner value takes [2^32] bytes or more. *)
Definition encode_size_wrapper {T} (enc : T -> bytes) (v : T) : option bytes :=
  let body := enc v in
  let total := Z.of_nat (length body) in
  if total <? 2 ^ 32 then Some (u32_to_be_bytes total ++ body) else None.

(** [impl Decode for u16]: big endian. *)
Definition decode_u16 (rb : bytes) : result (Z * bytes) DecodeError :=
  let? (buf, rest) := fill_buf 2 rb in
  Ok (match buf with [b0; b1] => Z.shiftl b0 8 + b1 | _ => 0 end, rest).

(** [u16::to_be_bytes], written by [impl Encode for u16]. *)
Definition u16_to_be_bytes (n : Z) : bytes :=
  [Z.land (Z.shiftr n 8) 255; Z.land n 255].

(** [impl Encode for u8]. *)
Definition encode_u8 (n : Z) : bytes := [n].

(** [struct u24(pub u32)] of [lib.rs]. *)
Record u24 := mk_u24 { u24_0 : Z }.

(** [impl TryFrom<usize> for u24]. *)
Definition u24_try_from (value : Z) : result u24 string :=
  if value >=? 2 ^ 24 then Err "Value out of bounds" else Ok (mk_u24 value).

(** [impl Encode for u24]: bytes [1..4] of [self.0.to_be_bytes()]. *)
Definition encode_u24 (v : u24) : bytes := drop 1 (u32_to_be_bytes (u24_0 v)).

(** [impl Decode for ()]: reads nothing. *)
Definition decode_unit (rb : bytes) : result (unit * bytes) DecodeError := Ok (tt, rb).

(** [impl Encode for ()]: writes nothing. *)
Definition encode_unit (_ : unit) : bytes := [].

(** [impl<T: Decode> Decode for Option<T>]: [None] on an empty buffer, else
    [T::decode(read_buffer).map(Some)]. *)
Definition decode_option {T} (dec : bytes -> result (T * bytes) DecodeError) (rb : bytes)
    : result (option T * bytes) DecodeError :=
  match rb with
  | [] => Ok (None, rb)
  | _ :: _ => let? (v, rest) := dec rb in Ok (Some v, rest)
  end.

(** [impl<T: Encode> Encode for Option<T>]: the value, or nothing. *)
Definition encode_option {T} (enc : T -> bytes) (o : option T) : bytes :=
  match o with Some v => enc v | None => [] end.

(** [impl Decode for Opaque<Size>]: the length as a [Size], then that many
    bytes. *)
Definition decode_opaque (decode_size : bytes -> result (Z * bytes) DecodeError)
    (rb : bytes) : result (bytes * bytes) DecodeError :=
  let? (len, rb1) := decode_size rb in
  fill_buf (Z.to_nat len) rb1.

(** [impl Encode for Opaque<Size>]: [Size::try_from(self.len()).unwrap()]
    then the bytes; the [unwrap] panics ([None]) when the length is not
    below [size_bound], the first value [Size] cannot hold. *)
Definition encode_opaque (size_bound : Z) (encode_size : Z -> bytes) (v : bytes)
    : option bytes :=
  let len := Z.of_nat (length v) in
  if len <? size_bound then Some (encode_size len ++ v) else None.

(** [Opaque<u8>] and [Opaque<u16>] (the decoder needs [Size: Into<usize>],
    which [u32] does not implement, so there is no [Opaque<u32>] codec). *)
Definition decode_opaque_u8 : bytes -> result (bytes * bytes) DecodeError :=
  decode_opaque decode_u8.
Definition encode_opaque_u8 : bytes -> option bytes := encode_opaque (2 ^ 8) encode_u8.
Definition decode_opaque_u16 : bytes -> result (bytes * bytes) DecodeError :=
  decode_opaque decode_u16.
Definition encode_opaque_u16 : bytes -> option bytes :=
  encode_opaque (2 ^ 16) u16_to_be_bytes.

(** [impl<T: Decode> Decode for Vec<T>]: [while !read_buffer.is_empty()]
    push one more decoded element, [?] on each. The loop runs as long as
    the element decoder lets it: [None] when it has not ended after [fuel]
    iterations. *)
Fixpoint decode_vec {T} (dec : bytes -> result (T * bytes) DecodeError) (fuel : nat)
    (rb : bytes) : option (result (list T * bytes) DecodeError) :=
  match rb with
  | [] => Some (Ok ([], rb))
  | _ :: _ =>
      match fuel with
      | O => None
      | S fuel' =>
          match dec rb with
          | Err e => Some (Err e)
          | Ok (v, rb') =>
              match decode_vec dec fuel' rb' with
              | Some (Ok (vs, rest)) => Some (Ok (v :: vs, rest))
              | r => r
              end
          end
      end
  end.

(** [impl<T: Encode> Encode for Vec<T>]: the elements one after the
    other. *)
Definition encode_vec {T} (enc : T -> bytes) (vs : list T) : bytes :=
  concat (map enc vs).

End Codec.

Import Codec.

(** ** Frame types, [proto/data.rs] *)

(** [enum FrameType], with its [#[tag]]s; [Unkonow] carries the unknown
    tag. *)
Inductive FrameType :=
| ServerKeyT | ClientInfoT | ServerInfoT | SendPacketT | RecvPacketT
| KeepAliveT | NotePreferredT | PeerGoneT | PeerPresentT | ForwardPacketT
| WatchConnsT | ClosePeerT | PingT | PongT | ControlMessageT
| Unkonow (tag : Z).

(** The derived [Encode]: the tag byte of each variant. *)
Definition frame_type_tag (t : FrameType) : Z :=
  match t with
  | ServerKeyT => 1 | ClientInfoT => 2 | ServerInfoT => 3 | SendPacketT => 4
  | RecvPacketT => 5 | KeepAliveT => 6 | NotePreferredT => 7 | PeerGoneT => 8
  | PeerPresentT => 9 | ForwardPacketT => 10 | WatchConnsT => 16
  | ClosePeerT => 17 | PingT => 18 | PongT => 19 | ControlMessageT => 20
  | Unkonow tag => tag
  end.

Definition encode_frame_type (t : FrameType) : bytes := [frame_type_tag t].

(** The derived [Decode]: decode a [u8] tag and match it against the tags;
    any other tag becomes [Unkonow(tag)]. *)
Definition frame_type_of_tag (tag : Z) : FrameType :=
  match tag with
  | 1 => ServerKeyT | 2 => ClientInfoT | 3 => ServerInfoT | 4 => SendPacketT
  | 5 => RecvPacketT | 6 => KeepAliveT | 7 => NotePreferredT | 8 => PeerGoneT
  | 9 => PeerPresentT | 10 => ForwardPacketT | 16 => WatchConnsT
  | 17 => ClosePeerT | 18 => PingT | 19 => PongT | 20 => ControlMessageT
  | _ => Unkonow tag
  end.

Definition decode_frame_type (rb : bytes) : result (FrameType * bytes) DecodeError :=
  let? (tag, rest) := decode_u8 rb in
  Ok (frame_type_of_tag tag, rest).

(** [FrameType::get_frame_type]. *)
Definition get_frame_type (buf : bytes) : FrameType :=
  match head buf with
  | Some first_byte =>
      match decode_frame_type [first_byte] with
      | Ok (t, _) => t
      | Err _ => Unkonow 0
      end
  | None => Unkonow 0
  end.

(** ** The [Encode] and [Decode] traits *)

Class Encode (T : Type) := encode : T -> bytes.
Class Decode (T : Type) := decode : bytes -> result (T * bytes) DecodeError.

(** [Vec<u8>]: the bytes themselves; decoding consumes the whole buffer. *)
Global Instance encode_vec_u8 : Encode bytes := fun v => v.
Global Instance decode_vec_u8_inst : Decode bytes := decode_vec_u8.

(** [crypto::PublicKey]. *)
Record PublicKey := mkPublicKey { pk_bytes : bytes }.

Global Instance PublicKey_eq_dec : EqDecision PublicKey.
Proof. solve_decision. Defined.

Global Instance PublicKey_countable : Countable PublicKey.
Proof. apply (inj_countable' pk_bytes mkPublicKey). by intros []. Defined.

(** Modelled from the spec: the codec of [crypto::PublicKey] (the module
    [crypto] is not part of the sources). A public key is a 32-byte opaque
    identifier, a fixed-width byte array written and read verbatim. *)
Global Instance encode_public_key : Encode PublicKey := pk_bytes.
Global Instance decode_public_key : Decode PublicKey := fun rb =>
  let? (b, rest) := decode_array 32 rb in
  Ok (mkPublicKey b, rest).

(** The frame bodies of [proto/data.rs]; field names are prefixed by the
    struct, since Rocq records share one name space. *)
Record ServerKey := { sk_magic : bytes; sk_public_key : PublicKey }.
Record ClientInfo := { ci_public_key : PublicKey; ci_nonce : bytes; ci_cipher_text : bytes }.
Record ServerInfo := { si_data : bytes }.
Record SendPacket := { sp_target : PublicKey; sp_payload : bytes }.
Record RecvPacket := { rp_target : PublicKey; rp_payload : bytes }.
Record ForwardPacket := { fp_source : PublicKey; fp_target : PublicKey; fp_payload : bytes }.
Record PeerPresent := { pp_public_key : PublicKey }.
Record WatchConns := { wc_data : bytes }.

(** The derived [Encode]s: the fields one after the other. *)
Global Instance encode_server_key : Encode ServerKey := fun v =>
  sk_magic v ++ encode (sk_public_key v).
Global Instance encode_client_info : Encode ClientInfo := fun v =>
  encode (ci_public_key v) ++ ci_nonce v ++ encode (ci_cipher_text v).
Global Instance encode_server_info : Encode ServerInfo := fun v => encode (si_data v).
Global Instance encode_send_packet : Encode SendPacket := fun v =>
  encode (sp_target v) ++ encode (sp_payload v).
Global Instance encode_recv_packet : Encode RecvPacket := fun v =>
  encode (rp_target v) ++ encode (rp_payload v).
Global Instance encode_forward_packet : Encode ForwardPacket := fun v =>
  encode (fp_source v) ++ encode (fp_target v) ++ encode (fp_payload v).
Global Instance encode_peer_present : Encode PeerPresent := fun v => encode (pp_public_key v).
Global Instance encode_watch_conns : Encode WatchConns := fun v => encode (wc_data v).

(** The derived [Decode]s: the fields one after the other, [?] on each. *)
Global Instance decode_server_key : Decode ServerKey := fun rb =>
  let? (magic, r1) := decode_array 8 rb in
  let? (pk, r2) := decode (T:=PublicKey) r1 in
  Ok ({| sk_magic := magic; sk_public_key := pk |}, r2).
Global Instance decode_client_info : Decode ClientInfo := fun rb =>
  let? (pk, r1) := decode (T:=PublicKey) rb in
  let? (nonce, r2) := decode_array 24 r1 in
  let? (ct, r3) := decode (T:=bytes) r2 in
  Ok ({| ci_public_key := pk; ci_nonce := nonce; ci_cipher_text := ct |}, r3).
Global Instance decode_server_info : Decode ServerInfo := fun rb =>
  let? (d, r1) := decode (T:=bytes) rb in
  Ok ({| si_data := d |}, r1).
Global Instance decode_send_packet : Decode SendPacket := fun rb =>
  let? (t, r1) := decode (T:=PublicKey) rb in
  let? (p, r2) := decode (T:=bytes) r1 in
  Ok ({| sp_target := t; sp_payload := p |}, r2).
Global Instance decode_recv_packet : Decode RecvPacket := fun rb =>
  let? (t, r1) := decode (T:=PublicKey) rb in
  let? (p, r2) := decode (T:=bytes) r1 in
  Ok ({| rp_target := t; rp_payload := p |}, r2).
Global Instance decode_forward_packet : Decode ForwardPacket := fun rb =>
  let? (s, r1) := decode (T:=PublicKey) rb in
  let? (t, r2) := decode (T:=PublicKey) r1 in
  let? (p, r3) := decode (T:=bytes) r2 in
  Ok ({| fp_source := s; fp_target := t; fp_payload := p |}, r3).
Global Instance decode_peer_present : Decode PeerPresent := fun rb =>
  let? (pk, r1) := decode (T:=PublicKey) rb in
  Ok ({| pp_public_key := pk |}, r1).
Global Instance decode_watch_conns : Decode WatchConns := fun rb =>
  let? (d, r1) := decode (T:=bytes) rb in
  Ok ({| wc_data := d |}, r1).

(** [struct Frame<T> { frame_type: FrameType, inner: SizeWrapper<u32, T> }]. *)
Record Frame (T : Type) := mkFrame { frame_type : FrameType; inner : T }.
Arguments mkFrame {T} _ _.
Arguments frame_type {T} _.
Arguments inner {T} _.

(** Encoding a frame into a [Vec<u8>]; [None] is the panic of the size
    wrapper's [unwrap]. *)
Definition encode_frame {T} `{Encode T} (f : Frame T) : option bytes :=
  body ← encode_size_wrapper encode (inner f);
  Some (encode_frame_type (frame_type f) ++ body).

Definition decode_frame {T} `{Decode T} (rb : bytes) : result (Frame T * bytes) DecodeError :=
  let? (ft, r1) := decode_frame_type rb in
  let? (v, r2) := decode_size_wrapper decode r1 in
  Ok (mkFrame ft v, r2).

(** [struct Header { frame_type: FrameType, size: u32 }]. *)
Definition decode_header (rb : bytes) : result ((FrameType * Z) * bytes) DecodeError :=
  let? (ft, r1) := decode_frame_type rb in
  let? (size, r2) := decode_u32 r1 in
  Ok ((ft, size), r2).

(** ** The stream reader, [inout.rs] *)

Definition HEADER_SIZE : nat := 5.

(** [struct Message { ty, buffer }]: [buffer] is the whole frame, header
    included. *)
Record Message := { ty : FrameType; buffer : bytes }.

Inductive PartMessage := InsufficientData | AMessage (m : Message).

(** [anyhow::Error]: its message. *)
Inductive Error := Anyhow (msg : string).

(** [InputBuffer::next_message]: the message and the data left in the
    input buffer. *)
Definition next_message (data : bytes) : result (PartMessage * bytes) Error :=
  if (length data <? HEADER_SIZE)%nat then Ok (InsufficientData, data)
  else
    match decode_header (take HEADER_SIZE data) with
    | Err _ => Err (Anyhow "Decode error")
    | Ok ((ft, size), _) =>
        let message_size := (HEADER_SIZE + Z.to_nat size)%nat in
        if (message_size <=? length data)%nat
        then Ok (AMessage {| ty := ft; buffer := take message_size data |},
                 drop message_size data)
        else Ok (InsufficientData, data)
    end.

(** ** The connection worker, [client.rs] *)

(** A [Sender<WriteLoopCommands>] is a handle on one writer task: we name
    the writer by a number. *)
Abbreviation Sink := nat.

(** [enum WriteLoopCommands]. *)
Inductive WriteLoopCommands :=
| WSendPacket (source target : PublicKey) (payload : bytes)
| WPeerPresent (pk : PublicKey)
| WStop.

(** [enum ServiceCommand] of [service.rs]. *)
Inductive ServiceCommand :=
| Stop
| SSendPacket (source target : PublicKey) (payload : bytes)
| SubscribeForPeerChanges (pk : PublicKey) (sink : Sink)
| SPeerPresent (pk : PublicKey) (sink : Sink).

(** One iteration of [Client::read_loop] on a message: what it pushes on
    the service channel ([RPush]), nothing ([RNone]), an error ending the
    loop ([RFail]) or a panic ([RPanic], the [todo!]). *)
Inductive ReadStep :=
| RNone
| RPush (cmd : ServiceCommand)
| RFail (e : Error)
| RPanic.

Definition read_step (pk : PublicKey) (can_mesh : bool) (our_sink : Sink)
    (message : Message) : ReadStep :=
  match ty message with
  | SendPacketT =>
      match decode_frame (T:=SendPacket) (buffer message) with
      | Err _ => RFail (Anyhow "Decode error")
      | Ok (f, _) =>
          let send_packet := inner f in
          RPush (SSendPacket pk (sp_target send_packet) (sp_payload send_packet))
      end
  | WatchConnsT =>
      if negb can_mesh then RNone
      else RPush (SubscribeForPeerChanges pk our_sink)
  | PeerPresentT =>
      match decode_frame (T:=PeerPresent) (buffer message) with
      | Err _ => RFail (Anyhow "Decode error")
      | Ok (f, _) => RPush (SPeerPresent (pp_public_key (inner f)) our_sink)
      end
  | _ => RPanic
  end.

(** One iteration of [Client::write_loop] on a command: the bytes written
    ([WEmit]), exit ([WExit]) or a panic ([WPanic]: the [todo!], or the
    size wrapper's [unwrap]). *)
Inductive WriteStep :=
| WEmit (out : bytes)
| WExit
| WPanic.

Definition emit {T} `{Encode T} (f : Frame T) : WriteStep :=
  match encode_frame f with Some out => WEmit out | None => WPanic end.

Definition write_step (pk : PublicKey) (can_mesh : bool) (cmd : WriteLoopCommands)
    : WriteStep :=
  match cmd with
  | WSendPacket source target payload =>
      match can_mesh, bool_decide (target ≠ pk) with
      | true, true =>
          emit (mkFrame ForwardPacketT
                  {| fp_source := source; fp_target := target; fp_payload := payload |})
      | _, false =>
          emit (mkFrame RecvPacketT {| rp_target := target; rp_payload := payload |})
      | false, true => WPanic
      end
  | WStop => WExit
  | WPeerPresent pk' => emit (mkFrame PeerPresentT {| pp_public_key := pk' |})
  end.

(** The writer loop run over the commands queued so far: the frames written,
    and whether it is still waiting for commands ([None]) or has ended. *)
Fixpoint write_loop (pk : PublicKey) (can_mesh : bool) (q : list WriteLoopCommands)
    : list bytes * option WriteStep :=
  match q with
  | [] => ([], None)
  | cmd :: q' =>
      match write_step pk can_mesh cmd with
      | WEmit out => let '(outs, e) := write_loop pk can_mesh q' in (out :: outs, e)
      | e => ([], Some e)
      end
  end.

(** A writer task: its connection's key, its [can_mesh] flag, whether its
    receiver is alive, and the commands queued on its channel. *)
Record Writer := {
  w_pk : PublicKey;
  w_can_mesh : bool;
  w_open : bool;
  w_queue : list WriteLoopCommands
}.

Abbreviation Writers := (gmap Sink Writer).

(** [Sender::send]: queue the command, or fail when the receiver is
    gone. *)
Definition send (net : Writers) (s : Sink) (cmd : WriteLoopCommands)
    : result Writers Error :=
  match net !! s with
  | Some w =>
      if w_open w
      then Ok (<[s := {| w_pk := w_pk w; w_can_mesh := w_can_mesh w; w_open := true;
                         w_queue := w_queue w ++ [cmd] |}]> net)
      else Err (Anyhow "channel closed")
  | None => Err (Anyhow "channel closed")
  end.

(** ** The routing service, [service.rs] *)

(** [struct DerpService] (the command sender apart). *)
Record DerpService := {
  peers_sinks : gmap PublicKey Sink;
  mesh : gmap PublicKey Sink;
  meshkey : option string
}.

Definition set_peers_sinks (st : DerpService) (m : gmap PublicKey Sink) : DerpService :=
  {| peers_sinks := m; mesh := mesh st; meshkey := meshkey st |}.
Definition set_mesh (st : DerpService) (m : gmap PublicKey Sink) : DerpService :=
  {| peers_sinks := peers_sinks st; mesh := m; meshkey := meshkey st |}.

(** [HashMap::contains_key]. *)
Definition contains_key (m : gmap PublicKey Sink) (k : PublicKey) : bool :=
  match m !! k with Some _ => true | None => false end.

(** A detached task sending commands one by one ([spawn]); its send
    failures are only logged. *)
Abbreviation Spawned := (list (Sink * WriteLoopCommands)).

(** [DerpService::notify_all_mesh_peers]. *)
Definition notify_all_mesh_peers (st : DerpService) (client_pk : PublicKey) : Spawned :=
  (fun '(_, sink) => (sink, WPeerPresent client_pk)) <$> map_to_list (mesh st).

(** The [match (&self.meshkey, &meshkey)] of [add_new_client]. *)
Definition resolve_can_mesh (server client : option string) : result bool Error :=
  match server, client with
  | None, None => Ok false
  | None, Some _ => Err (Anyhow "tried to mesh with a server that can't mesh")
  | Some _, None => Ok false
  | Some server_meshkey, Some client_meshkey =>
      if String.eqb server_meshkey client_meshkey then Ok true
      else Err (Anyhow "tried to mesh with a wrong key")
  end.

(** [DerpService::add_new_client]: [connected] is whether
    [socket.peer_addr()] succeeds in [Client::new]; [Client::run] starts a
    writer with a fresh sink. *)
Definition add_new_client (st : DerpService) (net : Writers) (connected : bool)
    (client_pk : PublicKey) (client_meshkey : option string)
    : result (DerpService * Writers * Spawned) Error :=
  let? can_mesh := resolve_can_mesh (meshkey st) client_meshkey in
  if negb connected then Err (Anyhow "not connected")
  else
    let sink := fresh (dom net) in
    let net' := <[sink := {| w_pk := client_pk; w_can_mesh := can_mesh; w_open := true;
                            w_queue := [] |}]> net in
    let st' := set_peers_sinks st (<[client_pk := sink]> (peers_sinks st)) in
    Ok (st', net', notify_all_mesh_peers st' client_pk).

(** [notify_about_all_clients]. *)
Definition notify_about_all_clients (mesh_sink : Sink) (clients_pk : list PublicKey)
    : Spawned :=
  (fun pk => (mesh_sink, WPeerPresent pk)) <$> clients_pk.

(** One turn of [command_loop]: [None] is [r.recv()] on a closed channel. *)
Inductive Step :=
| Next (st : DerpService) (net : Writers) (spawned : Spawned)
| Return (r : result unit Error).

Definition command_loop_step (st : DerpService) (net : Writers)
    (received : option ServiceCommand) : Step :=
  match received with
  | Some (SSendPacket source target payload) =>
      match peers_sinks st !! target with
      | None => Next st net []
      | Some sink =>
          match send net sink (WSendPacket source target payload) with
          | Ok net' => Next st net' []
          | Err e => Return (Err e)
          end
      end
  | Some (SubscribeForPeerChanges mesh_peer_pk mesh_sink) =>
      let st' := set_mesh st (<[mesh_peer_pk := mesh_sink]> (mesh st)) in
      let current_peers :=
        filter (fun pk => contains_key (mesh st') pk = false)
               (fst <$> map_to_list (peers_sinks st')) in
      Next st' net (notify_about_all_clients mesh_sink current_peers)
  | Some (SPeerPresent pk sink) =>
      match peers_sinks st !! pk with
      | Some _ => Next st net []
      | None => Next (set_peers_sinks st (<[pk := sink]> (peers_sinks st))) net []
      end
  | Some Stop => Return (Ok ())
  | None => Return (Ok ())
  end.

(** [command_loop] over the commands received, the channel being closed
    after the last one: the loop's result, the final service state and
    writers, and the detached notifications spawned. *)
Fixpoint command_loop (st : DerpService) (net : Writers) (cmds : list ServiceCommand)
    : result unit Error * DerpService * Writers * Spawned :=
  match cmds with
  | [] =>
      match command_loop_step st net None with
      | Return r => (r, st, net, [])
      | Next st' net' sp => (Ok (), st', net', sp)
      end
  | c :: cs =>
      match command_loop_step st net (Some c) with
      | Return r => (r, st, net, [])
      | Next st' net' sp =>
          let '(r, st'', net'', sp') := command_loop st' net' cs in
          (r, st'', net'', sp ++ sp')
      end
  end.

(** ** The client-info step of the handshake, [proto/data.rs] and
    [proto/mod.rs] *)

(** [crypto::SecretKey]. *)
Record SecretKey := mkSecretKey { sk_bytes : bytes }.

(** [struct ClientInfoPayload { version: u32, meshKey: String }]. *)
Record ClientInfoPayload := { version : Z; payload_meshkey : string }.

Section Handshake.

(** [SalsaBox::new(client_pk, sk).decrypt(nonce, cipher_text)], from the
    [crypto_box] crate. *)
Variable salsa_box_decrypt : PublicKey -> SecretKey -> bytes -> bytes -> option bytes.

(** [serde_json::from_slice::<ClientInfoPayload>]: [None] when the
    plaintext is not JSON of that shape (a [u32] [version] and a string
    [meshKey]). *)
Variable from_slice : bytes -> option ClientInfoPayload.

(** [ClientInfo::complete]: decrypt, then deserialize; the result is
    [CompleteClientInfo] without its nonce. *)
Definition complete (ci : ClientInfo) (sk : SecretKey)
    : result (PublicKey * ClientInfoPayload) Error :=
  match salsa_box_decrypt (ci_public_key ci) sk (ci_nonce ci) (ci_cipher_text ci) with
  | None => Err (Anyhow "decrypt error")
  | Some plain_text =>
      match from_slice plain_text with
      | None => Err (Anyhow "Client info parsing")
      | Some payload => Ok (ci_public_key ci, payload)
      end
  end.

(** [read_client_info] on the bytes of its read. *)
Definition read_client_info (buf : bytes) (sk : SecretKey)
    : result (PublicKey * option string) Error :=
  match get_frame_type buf with
  | ClientInfoT =>
      match decode_frame (T:=ClientInfo) buf with
      | Err _ => Err (Anyhow "Decode error")
      | Ok (f, _) =>
          let? (pk, payload) := complete (inner f) sk in
          Ok (pk, if String.eqb (payload_meshkey payload) "" then None
                  else Some (payload_meshkey payload))
      end
  | _ => Err (Anyhow "Unexpected message")
  end.

End Handshake.

(** ** Validity of frames, and the spec's tables *)

(** The frame types that are not the catch-all. *)
Definition known (t : FrameType) : Prop :=
  match t with Unkonow _ => False | _ => True end.

(** A well-formed body: its fixed-width arrays have their width (the Rust
    types [[u8; 8]], [[u8; 24]] and the 32 bytes of a public key). *)
Class WellFormed (T : Type) := well_formed : T -> Prop.

Global Instance wf_public_key : WellFormed PublicKey := fun k => length (pk_bytes k) = 32%nat.
Global Instance wf_server_key : WellFormed ServerKey := fun v =>
  length (sk_magic v) = 8%nat /\ well_formed (sk_public_key v).
Global Instance wf_client_info : WellFormed ClientInfo := fun v =>
  well_formed (ci_public_key v) /\ length (ci_nonce v) = 24%nat.
Global Instance wf_server_info : WellFormed ServerInfo := fun _ => True.
Global Instance wf_send_packet : WellFormed SendPacket := fun v => well_formed (sp_target v).
Global Instance wf_recv_packet : WellFormed RecvPacket := fun v => well_formed (rp_target v).
Global Instance wf_forward_packet : WellFormed ForwardPacket := fun v =>
  well_formed (fp_source v) /\ well_formed (fp_target v).
Global Instance wf_peer_present : WellFormed PeerPresent := fun v => well_formed (pp_public_key v).
Global Instance wf_watch_conns : WellFormed WatchConns := fun _ => True.

(** A frame of a supported type with a valid body: a known frame type, a
    well-formed body, and a body that fits the [u32] length. *)
Definition valid_frame {T} `{Encode T} `{WellFormed T} (f : Frame T) : Prop :=
  known (frame_type f) /\ well_formed (inner f) /\
  Z.of_nat (length (encode (inner f))) < 2 ^ 32.

(** [decode(encode(F)) == F], the whole input being used. *)
Definition frame_roundtrips {T} `{Encode T} `{Decode T} (f : Frame T) : Prop :=
  exists bs, encode_frame f = Some bs /\ decode_frame bs = Ok (f, []).

(** ** The frame types of the spec's wire table *)

(** The table of section 6 of the spec, tag and frame type. *)
Definition spec_frame_types : list (Z * FrameType) :=
  [(1, ServerKeyT); (2, ClientInfoT); (3, ServerInfoT); (4, SendPacketT);
   (5, RecvPacketT); (6, KeepAliveT); (7, NotePreferredT); (8, PeerGoneT);
   (9, PeerPresentT); (10, ForwardPacketT); (16, WatchConnsT); (17, ClosePeerT);
   (18, PingT); (19, PongT); (20, ControlMessageT)].

Fixpoint spec_lookup (tag : Z) (l : list (Z * FrameType)) : option FrameType :=
  match l with
  | [] => None
  | (t, ft) :: l' => if Z.eqb t tag then Some ft else spec_lookup tag l'
  end.

(** Keys and frames used in tests and examples. *)
Definition key_of (b : Z) : PublicKey := mkPublicKey (repeat b 32).

Definition sample_send_packet_frame : Frame SendPacket :=
  mkFrame SendPacketT {| sp_target := key_of 2; sp_payload := [104; 105] |}.

(** ** Composition of the tasks *)

(** One frame [wire] read by the connection [src_pk] (its reader task),
    processed by the service's command loop, and the frames the writer
    task of [dst_sink] then writes from its queue. *)
Definition relay_frame (st : DerpService) (net : Writers) (src_pk : PublicKey)
    (src_can_mesh : bool) (src_sink : Sink) (wire : bytes) (dst_sink : Sink)
    : option (list bytes * option WriteStep) :=
  match next_message wire with
  | Ok (AMessage m, _) =>
      match read_step src_pk src_can_mesh src_sink m with
      | RPush cmd =>
          match command_loop_step st net (Some cmd) with
          | Next _ net' _ =>
              (fun w => write_loop (w_pk w) (w_can_mesh w) (w_queue w)) <$> net' !! dst_sink
          | Return _ => None
          end
      | _ => None
      end
  | _ => None
  end.

(** ** The spec's mesh admission table (section 4.B) *)

(** [Some can_mesh] when the client is admitted, [None] when it is
    rejected. *)
Definition admission_table (server_has client_presented : option string) : option bool :=
  match server_has, client_presented with
  | None, None => Some false
  | None, Some _ => None
  | Some _, None => Some false
  | Some s, Some c => if bool_decide (s = c) then Some true else None
  end.

(** ** Concrete inputs *)

Definition open_writer (pk : PublicKey) (can_mesh : bool) : Writer :=
  {| w_pk := pk; w_can_mesh := can_mesh; w_open := true; w_queue := [] |}.

(** Clients [A = key_of 1] (sink 0) and [B = key_of 2] (sink 1) registered
    on a relay without mesh key. *)
Definition svc_ab : DerpService :=
  {| peers_sinks := <[key_of 1 := 0%nat]> (<[key_of 2 := 1%nat]> ∅);
     mesh := ∅; meshkey := None |}.
Definition net_ab : Writers :=
  <[0%nat := open_writer (key_of 1) false]> (<[1%nat := open_writer (key_of 2) false]> ∅).

(** [SendPacket{target = B, payload = "hi"}] on the wire. *)
Definition wire_send_hi_to_b : bytes :=
  [4; 0; 0; 0; 34] ++ repeat 2 32 ++ [104; 105].

(** A relay whose only directory entry is the mesh peer [key_of 3] on
    sink 0. *)
Definition svc_mesh_only : DerpService :=
  {| peers_sinks := ∅; mesh := <[key_of 3 := 0%nat]> ∅; meshkey := Some "k" |}.
Definition net_mesh_only : Writers := <[0%nat := open_writer (key_of 3) true]> ∅.

(** A fresh mesh-enabled relay, as [DerpService::new] leaves it when no mesh
    peer is configured. *)
Definition svc_fresh_mesh : DerpService :=
  {| peers_sinks := ∅; mesh := ∅; meshkey := Some "k" |}.

(** Client [B = key_of 2] registered on sink 1, whose writer has exited. *)
Definition svc_dead_b : DerpService :=
  {| peers_sinks := <[key_of 2 := 1%nat]> ∅; mesh := ∅; meshkey := None |}.
Definition net_dead_b : Writers :=
  <[1%nat := {| w_pk := key_of 2; w_can_mesh := false; w_open := false; w_queue := [] |}]> ∅.

(** The bytes of an ASCII string. *)
Definition string_bytes (s : string) : bytes :=
  map (fun c => Z.of_nat (Ascii.nat_of_ascii c)) (String.list_ascii_of_string s).

Definition quote : bytes := [34].

(** The plaintext [{"version": 3, "meshKey": ""}]. *)
Definition json_version_3 : bytes :=
  string_bytes "{" ++ quote ++ string_bytes "version" ++ quote ++ string_bytes ": 3, "
  ++ quote ++ string_bytes "meshKey" ++ quote ++ string_bytes ": " ++ quote ++ quote
  ++ string_bytes "}".

(** [serde_json::from_slice::<ClientInfoPayload>] on that plaintext: a
    [version] of 3 fits the [u32] field. *)
Definition from_slice_version_3 (pt : bytes) : option ClientInfoPayload :=
  if bool_decide (pt = json_version_3)
  then Some {| version := 3; payload_meshkey := "" |} else None.

(** A box whose ciphertext is its plaintext (the cryptography is not what
    is checked here). *)
Definition open_plain (_ : PublicKey) (_ : SecretKey) (_ : bytes) (ct : bytes) : option bytes :=
  Some ct.

(** The [ClientInfo] frame of client [key_of 5] carrying [json_version_3],
    and its bytes. *)
Definition client_info_frame_version_3 : Frame ClientInfo :=
  mkFrame ClientInfoT {| ci_public_key := key_of 5; ci_nonce := repeat 2 24;
                         ci_cipher_text := json_version_3 |}.
Definition client_info_version_3 : bytes :=
  default [] (encode_frame client_info_frame_version_3).

Definition server_secret : SecretKey := mkSecretKey (repeat 0 32).

(** ** More of the frame types, [proto/data.rs] *)

(** The variants of [FrameType] that carry a [#[tag]]. *)
Definition tagged_frame_types : list FrameType :=
  [ServerKeyT; ClientInfoT; ServerInfoT; SendPacketT; RecvPacketT; KeepAliveT;
   NotePreferredT; PeerGoneT; PeerPresentT; ForwardPacketT; WatchConnsT; ClosePeerT;
   PingT; PongT; ControlMessageT].

(** [const MAGIC: [u8; 8]], the bytes of "DERP" and the key emoji U+1F511. *)
Definition MAGIC : bytes := [68; 69; 82; 80; 240; 159; 148; 145].

(** [ServerKey::new]. *)
Definition server_key_new (public_key : PublicKey) : ServerKey :=
  {| sk_magic := MAGIC; sk_public_key := public_key |}.

(** [ServerKey::validate_magic]. *)
Definition validate_magic (v : ServerKey) : result unit Error :=
  if bool_decide (sk_magic v = MAGIC) then Ok () else Err (Anyhow "Invalid magic").

(** ** The handshake reads and writes, [proto/mod.rs] *)

(** [let mut buf = [0; 1024]; reader.read(&mut buf)]: the buffer holds the
    first bytes the read delivers, at most 1024, and zeros after them. *)
Definition read_buf_1024 (delivered : bytes) : bytes :=
  take 1024 delivered ++ repeat 0 (1024 - length delivered).

(** [write_server_key], for the server's public key
    [secret_key.public()]: the bytes written, [None] being the panic of the
    size wrapper. *)
Definition write_server_key (public_key : PublicKey) : option bytes :=
  encode_frame (mkFrame ServerKeyT (server_key_new public_key)).

(** [read_server_key] on the buffer of its read. *)
Definition read_server_key (buf : bytes) : result PublicKey Error :=
  match get_frame_type buf with
  | ServerKeyT =>
      match decode_frame (T:=ServerKey) buf with
      | Err _ => Err (Anyhow "Decode error")
      | Ok (f, _) =>
          let server_key := inner f in
          let? _ := validate_magic server_key in
          Ok (sk_public_key server_key)
      end
  | _ => Err (Anyhow "Unexpected message")
  end.

(** [httparse::Header]: the name as a [&str], the value as bytes. *)
Record HttpHeader := { h_name : string; h_value : bytes }.

(** [std::str::from_utf8] accepts well-formed UTF-8 (table 3-7 of the
    Unicode standard): a [&str] is its bytes. *)
Definition cont (b : Z) : bool := (128 <=? b) && (b <=? 191).

Fixpoint utf8_valid (v : bytes) : bool :=
  match v with
  | [] => true
  | b :: r =>
      if b <? 128 then utf8_valid r
      else if (194 <=? b) && (b <=? 223) then
        match r with c1 :: r' => cont c1 && utf8_valid r' | [] => false end
      else if (224 <=? b) && (b <=? 239) then
        match r with
        | c1 :: c2 :: r' =>
            (if b =? 224 then (160 <=? c1) && (c1 <=? 191)
             else if b =? 237 then (128 <=? c1) && (c1 <=? 159)
             else cont c1) && cont c2 && utf8_valid r'
        | _ => false
        end
      else if (240 <=? b) && (b <=? 244) then
        match r with
        | c1 :: c2 :: c3 :: r' =>
            (if b =? 240 then (144 <=? c1) && (c1 <=? 191)
             else if b =? 244 then (128 <=? c1) && (c1 <=? 143)
             else cont c1) && cont c2 && cont c3 && utf8_valid r'
        | _ => false
        end
      else false
  end.

Definition from_utf8 (v : bytes) : result bytes Error :=
  if utf8_valid v then Ok v else Err (Anyhow "invalid utf-8").

(** [str::to_ascii_lowercase]: [A-Z] to [a-z], every other byte kept. *)
Definition to_ascii_lowercase (v : bytes) : bytes :=
  map (fun b => if (65 <=? b) && (b <=? 90) then b + 32 else b) v.

(** [validate_headers]. *)
Fixpoint validate_headers (headers : list HttpHeader) : result unit Error :=
  match headers with
  | [] => Ok ()
  | h :: hs =>
      let? _ :=
        (if String.eqb (h_name h) "Upgrade" then
           let? v := from_utf8 (h_value h) in
           let value := to_ascii_lowercase v in
           if bool_decide (value = string_bytes "websocket")
              || bool_decide (value = string_bytes "derp")
           then Ok () else Err (Anyhow "Unexpected Upgrade value")
         else Ok ()) in
      let? _ :=
        (if String.eqb (h_name h) "Connection" then
           let? v := from_utf8 (h_value h) in
           let value := to_ascii_lowercase v in
           if bool_decide (value = string_bytes "upgrade")
           then Ok () else Err (Anyhow "Unexpected Connection value")
         else Ok ()) in
      validate_headers hs
  end.

(** ** More of the stream reader, [inout.rs] *)

(** [DerpReader::get_next_message]: take the next message out of the input
    buffer, reading more data while there is not enough. [reads] are the
    results of the successive [read]s of the socket, each the bytes it put
    in [read_buffer] (at most [MAX_TCP_PACKET_SIZE] of them; none at end of
    stream). [Waiting] is a call still blocked in a read when they run
    out. *)
Inductive NextMessage :=
| Got (m : Message) (input : bytes) (reads : list (result bytes Error))
| Waiting (input : bytes)
| Failed (e : Error).

Fixpoint get_next_message (input : bytes) (reads : list (result bytes Error)) : NextMessage :=
  match next_message input with
  | Err e => Failed e
  | Ok (AMessage m, input') => Got m input' reads
  | Ok (InsufficientData, input') =>
      match reads with
      | [] => Waiting input'
      | Err e :: _ => Failed e
      | Ok chunk :: reads' => get_next_message (input' ++ chunk) reads'
      end
  end.

(** ** The mesh client, [mesh_client.rs] *)

(** One iteration of [MeshClient::read_loop] on a message; [sender] is the
    mesh client's own writer. *)
Definition mesh_read_step (sender : Sink) (message : Message) : ReadStep :=
  match ty message with
  | PeerPresentT =>
      match decode_frame (T:=PeerPresent) (buffer message) with
      | Err _ => RFail (Anyhow "Decode error")
      | Ok (f, _) => RPush (SPeerPresent (pp_public_key (inner f)) sender)
      end
  | ForwardPacketT =>
      match decode_frame (T:=ForwardPacket) (buffer message) with
      | Err _ => RFail (Anyhow "Decode error")
      | Ok (f, _) =>
          let forward_packet := inner f in
          RPush (SSendPacket (fp_source forward_packet) (fp_target forward_packet)
                   (fp_payload forward_packet))
      end
  | _ => RPanic
  end.

(** One iteration of the mesh client's [write_loop] on [r.recv()]
    ([None]: the channel is closed). *)
Definition mesh_write_step (received : option WriteLoopCommands) : WriteStep :=
  match received with
  | Some (WPeerPresent pk) => emit (mkFrame PeerPresentT {| pp_public_key := pk |})
  | Some _ => WPanic
  | None => WPanic
  end.

(** ** Starting the service, [DerpService::new] *)

(** What becomes of one configured mesh peer address: it does not resolve
    ([MeshClient::new] fails: [lookup_host] errs or yields no address), its
    client fails to start ([MeshClient::start] errs), or it starts, giving
    the peer's key and the mesh client's writer. *)
Inductive MeshPeerOutcome :=
| Unresolved
| StartFailed
| Started (mesh_peer_pk : PublicKey) (sender : Sink).

(** What happens, in order, while [DerpService::new] runs with a mesh
    key: the command loop it spawned before the mesh-peer loop takes one
    command from the service channel (the started mesh clients' readers
    push on it), or the [for addr in config.mesh_peers] loop is done with
    one more address. *)
Inductive NewEvent :=
| ECommand (c : ServiceCommand)
| EMeshPeer (o : MeshPeerOutcome).

(** The commands a mesh client's [read_loop] pushes: [PeerPresent] with its
    own writer, and [SendPacket] for a [ForwardPacket]. *)
Definition mesh_client_event (e : NewEvent) : bool :=
  match e with
  | ECommand (SPeerPresent _ _) | ECommand (SSendPacket _ _ _) => true
  | ECommand _ => false
  | EMeshPeer _ => true
  end.

(** The service state until [DerpService::new] returns. The mesh-peer loop:
    [?] on [MeshClient::new], a failed [start] only logged, a started one
    inserted in [mesh]. The spawned command loop, while [running], applies
    each command it takes to the shared state; once it has returned, no
    command is taken any more. The notifications its steps spawn are
    detached tasks writing to the writers, not to the directories; they
    are not followed here. *)
Fixpoint new_mesh_loop (st : DerpService) (net : Writers) (running : bool)
    (evs : list NewEvent) : result DerpService Error :=
  match evs with
  | [] => Ok st
  | ECommand c :: evs' =>
      if running then
        match command_loop_step st net (Some c) with
        | Next st' net' _ => new_mesh_loop st' net' true evs'
        | Return _ => new_mesh_loop st net false evs'
        end
      else new_mesh_loop st net false evs'
  | EMeshPeer Unresolved :: _ => Err (Anyhow "Failed to resolve")
  | EMeshPeer StartFailed :: evs' => new_mesh_loop st net running evs'
  | EMeshPeer (Started pk sender) :: evs' =>
      new_mesh_loop (set_mesh st (<[pk := sender]> (mesh st))) net running evs'
  end.

(** [DerpService::new]: empty directories and the command loop spawned;
    the mesh peers are started, while the command loop runs, only when the
    configuration has a mesh key. Without one, nothing holds the command
    channel's sender but the service itself, and no client is accepted
    before [new] returns, so no command is processed. *)
Definition new_service (meshkey : option string) (net : Writers) (evs : list NewEvent)
    : result DerpService Error :=
  let ret := {| peers_sinks := ∅; mesh := ∅; meshkey := meshkey |} in
  match meshkey with
  | Some _ => new_mesh_loop ret net true evs
  | None => Ok ret
  end.

(** The size field of a frame header: bytes 1 to 4 of the data. *)
Definition header_size_field (data : bytes) : nat := Z.to_nat (u32_of_be (take 4 (drop 1 data))).

(** * Proofs *)

(** ** Tests of the model against the sources' tests and the spec's
    scenarios *)

(** [test_server_key_frame] of [proto/data.rs]. *)
Example server_key_frame_bytes :
  encode_frame (mkFrame ServerKeyT {| sk_magic := [68; 69; 82; 80; 240; 159; 148; 145];
                                      sk_public_key := key_of 0 |})
  = Some ([1; 0; 0; 0; 40; 68; 69; 82; 80; 240; 159; 148; 145] ++ repeat 0 32).
Proof. reflexivity. Qed.

(** [test_client_info] of [proto/data.rs]. *)
Example client_info_frame_decode :
  decode_frame (T:=ClientInfo) ([2; 0; 0; 0; 58] ++ repeat 5 32 ++ repeat 2 24 ++ [12; 12])
  = Ok (mkFrame ClientInfoT {| ci_public_key := key_of 5; ci_nonce := repeat 2 24;
                               ci_cipher_text := [12; 12] |}, []).
Proof. reflexivity. Qed.

(** Scenario 1 of the spec: the empty [ServerInfo] frame. *)
Example server_info_frame_bytes :
  encode_frame (mkFrame ServerInfoT {| si_data := [] |}) = Some [3; 0; 0; 0; 0].
Proof. reflexivity. Qed.

(** ** Codec lemmas *)

Lemma fill_buf_app (n : nat) (a r : bytes) :
  length a = n -> fill_buf n (a ++ r) = Ok (a, r).
Proof.
  intros <-. unfold fill_buf. rewrite length_app.
  replace (length a + length r <? length a)%nat with false
    by (symmetry; apply Nat.ltb_ge; lia).
  by rewrite take_app_length, drop_app_length.
Qed.

Lemma fill_buf_exact (n : nat) (a : bytes) :
  length a = n -> fill_buf n a = Ok (a, []).
Proof. intros H. rewrite <- (app_nil_r a) at 1. by apply fill_buf_app. Qed.

Lemma decode_vec_u8_all (l : bytes) : decode_vec_u8 l = Ok (l, []).
Proof. induction l as [|b l IH]; [done|]. simpl. by rewrite IH. Qed.

Lemma u32_roundtrip (n : Z) : 0 <= n < 2 ^ 32 -> u32_of_be (u32_to_be_bytes n) = n.
Proof.
  intros Hn. unfold u32_of_be, u32_to_be_bytes.
  change 255 with (Z.ones 8).
  rewrite !Z.land_ones by lia.
  rewrite !Z.shiftr_div_pow2 by lia.
  rewrite !Z.shiftl_mul_pow2 by lia.
  replace (2 ^ 24) with (2 ^ 8 * 2 ^ 8 * 2 ^ 8) by reflexivity.
  replace (2 ^ 16) with (2 ^ 8 * 2 ^ 8) by reflexivity.
  rewrite <- !Z.div_div by lia.
  set (a := n / 2 ^ 8). set (b := a / 2 ^ 8). set (c := b / 2 ^ 8).
  assert (Hc : 0 <= c < 2 ^ 8).
  { subst a b c. rewrite !Z.div_div by lia.
    split; [apply Z.div_pos; lia | apply Z.div_lt_upper_bound; lia]. }
  rewrite (Z.mod_small c) by exact Hc.
  pose proof (Z.div_mod n (2 ^ 8) ltac:(lia)).
  pose proof (Z.div_mod a (2 ^ 8) ltac:(lia)).
  pose proof (Z.div_mod b (2 ^ 8) ltac:(lia)).
  fold a in H. fold b in H0. fold c in H1.
  change (2 ^ 8) with 256 in *. lia.
Qed.

Lemma decode_u32_app (n : Z) (r : bytes) :
  0 <= n < 2 ^ 32 -> decode_u32 (u32_to_be_bytes n ++ r) = Ok (n, r).
Proof.
  intros Hn. unfold decode_u32. rewrite fill_buf_app by reflexivity.
  cbn [rbind]. by rewrite u32_roundtrip.
Qed.

Lemma size_wrapper_roundtrip {T} (enc : T -> bytes)
    (dec : bytes -> result (T * bytes) DecodeError) (v : T) (bs r : bytes) :
  dec (enc v) = Ok (v, []) ->
  encode_size_wrapper enc v = Some bs ->
  decode_size_wrapper dec (bs ++ r) = Ok (v, r).
Proof.
  intros Hdec. unfold encode_size_wrapper.
  destruct (Z.of_nat (length (enc v)) <? 2 ^ 32) eqn:Hlt; [|done].
  apply Z.ltb_lt in Hlt.
  intros Hbs.
  assert (bs = u32_to_be_bytes (Z.of_nat (length (enc v))) ++ enc v) as -> by congruence.
  unfold decode_size_wrapper.
  rewrite <- app_assoc, decode_u32_app by lia. cbn [rbind].
  rewrite Nat2Z.id, fill_buf_app by reflexivity. cbn [rbind].
  by rewrite Hdec.
Qed.

Lemma frame_type_roundtrip (t : FrameType) :
  known t -> frame_type_of_tag (frame_type_tag t) = t.
Proof. by destruct t. Qed.

Lemma decode_frame_type_cons (tag : Z) (r : bytes) :
  decode_frame_type (tag :: r) = Ok (frame_type_of_tag tag, r).
Proof. reflexivity. Qed.

Lemma frame_roundtrip {T} `{Encode T} `{Decode T} (f : Frame T) (bs r : bytes) :
  known (frame_type f) ->
  decode (encode (inner f)) = Ok (inner f, []) ->
  encode_frame f = Some bs ->
  decode_frame (bs ++ r) = Ok (f, r).
Proof.
  intros Hk Hdec. unfold encode_frame.
  destruct (encode_size_wrapper encode (inner f)) as [body|] eqn:Hb; [|done].
  intros Hbs. assert (bs = frame_type_tag (frame_type f) :: body) as -> by (simpl in Hbs; congruence).
  unfold decode_frame. rewrite <- app_comm_cons, decode_frame_type_cons. cbn [rbind].
  rewrite frame_type_roundtrip by exact Hk.
  rewrite (size_wrapper_roundtrip _ _ _ _ _ Hdec Hb). by destruct f.
Qed.

(** ** Well-formed bodies and their round trips *)

Lemma decode_public_key_app (k : PublicKey) (r : bytes) :
  well_formed k -> decode_public_key (pk_bytes k ++ r) = Ok (k, r).
Proof.
  intros Hk. unfold decode_public_key, decode_array.
  rewrite fill_buf_app by exact Hk. by destruct k.
Qed.

Lemma decode_public_key_exact (k : PublicKey) :
  well_formed k -> decode_public_key (pk_bytes k) = Ok (k, []).
Proof. intros Hk. rewrite <- (app_nil_r (pk_bytes k)). by apply decode_public_key_app. Qed.

Lemma decode_array_app (n : nat) (a r : bytes) :
  length a = n -> decode_array n (a ++ r) = Ok (a, r).
Proof. apply fill_buf_app. Qed.

(** One field decoded: rewrite it and go on with the next. *)
Ltac decode_fields :=
  repeat (first
    [ rewrite decode_public_key_app by assumption
    | rewrite decode_public_key_exact by assumption
    | rewrite decode_array_app by assumption
    | rewrite decode_vec_u8_all ]; cbn [rbind]).

Ltac body_roundtrip :=
  intros v Hv; destruct v;
  cbv beta iota zeta delta [well_formed wf_public_key wf_server_key wf_client_info
    wf_server_info wf_send_packet wf_recv_packet wf_forward_packet wf_peer_present
    wf_watch_conns] in Hv;
  cbv beta iota zeta delta [decode encode encode_vec_u8 decode_vec_u8_inst
    encode_public_key decode_server_key decode_client_info decode_server_info
    decode_send_packet decode_recv_packet decode_forward_packet decode_peer_present
    decode_watch_conns encode_server_key encode_client_info encode_server_info
    encode_send_packet encode_recv_packet encode_forward_packet encode_peer_present
    encode_watch_conns];
  fold decode_public_key;
  repeat match goal with H : _ /\ _ |- _ => destruct H end;
  decode_fields; reflexivity.

Lemma server_key_body_roundtrip :
  forall v : ServerKey, well_formed v -> decode (encode v) = Ok (v, []).
Proof. body_roundtrip. Qed.

Lemma client_info_body_roundtrip :
  forall v : ClientInfo, well_formed v -> decode (encode v) = Ok (v, []).
Proof. body_roundtrip. Qed.

Lemma server_info_body_roundtrip :
  forall v : ServerInfo, well_formed v -> decode (encode v) = Ok (v, []).
Proof. body_roundtrip. Qed.

Lemma send_packet_body_roundtrip :
  forall v : SendPacket, well_formed v -> decode (encode v) = Ok (v, []).
Proof. body_roundtrip. Qed.

Lemma recv_packet_body_roundtrip :
  forall v : RecvPacket, well_formed v -> decode (encode v) = Ok (v, []).
Proof. body_roundtrip. Qed.

Lemma forward_packet_body_roundtrip :
  forall v : ForwardPacket, well_formed v -> decode (encode v) = Ok (v, []).
Proof. body_roundtrip. Qed.

Lemma peer_present_body_roundtrip :
  forall v : PeerPresent, well_formed v -> decode (encode v) = Ok (v, []).
Proof. body_roundtrip. Qed.

Lemma watch_conns_body_roundtrip :
  forall v : WatchConns, well_formed v -> decode (encode v) = Ok (v, []).
Proof. body_roundtrip. Qed.

Lemma valid_frame_roundtrips {T} `{Encode T} `{Decode T} `{WellFormed T}
    (Hbody : forall v : T, well_formed v -> decode (encode v) = Ok (v, []))
    (f : Frame T) :
  valid_frame f -> frame_roundtrips f.
Proof.
  intros (Hk & Hwf & Hlen).
  destruct (encode_frame f) as [bs|] eqn:E.
  - exists bs. split; [done|]. rewrite <- (app_nil_r bs).
    apply frame_roundtrip; auto.
  - exfalso. unfold encode_frame, encode_size_wrapper in E. cbv zeta in E.
    rewrite (proj2 (Z.ltb_lt _ _) Hlen) in E. discriminate.
Qed.

(** * Claims *)

(** ** Codec *)

(** C6: for every frame of a supported type ([ServerKey], [ClientInfo],
    [ServerInfo], [SendPacket], [RecvPacket], [PeerPresent], [ForwardPacket],
    [WatchConns]) with a valid body, encoding succeeds and decoding the
    encoded bytes gives the frame back, consuming all of them. *)
Theorem frame_decode_encode_roundtrip :
  (forall f : Frame ServerKey, valid_frame f -> frame_roundtrips f) /\
  (forall f : Frame ClientInfo, valid_frame f -> frame_roundtrips f) /\
  (forall f : Frame ServerInfo, valid_frame f -> frame_roundtrips f) /\
  (forall f : Frame SendPacket, valid_frame f -> frame_roundtrips f) /\
  (forall f : Frame RecvPacket, valid_frame f -> frame_roundtrips f) /\
  (forall f : Frame PeerPresent, valid_frame f -> frame_roundtrips f) /\
  (forall f : Frame ForwardPacket, valid_frame f -> frame_roundtrips f) /\
  (forall f : Frame WatchConns, valid_frame f -> frame_roundtrips f).
Proof.
  repeat split; apply valid_frame_roundtrips.
  - exact server_key_body_roundtrip.
  - exact client_info_body_roundtrip.
  - exact server_info_body_roundtrip.
  - exact send_packet_body_roundtrip.
  - exact recv_packet_body_roundtrip.
  - exact peer_present_body_roundtrip.
  - exact forward_packet_body_roundtrip.
  - exact watch_conns_body_roundtrip.
Qed.

Lemma frame_decode_encode_roundtrip_witness :
  valid_frame sample_send_packet_frame /\ frame_roundtrips sample_send_packet_frame.
Proof.
  assert (H : valid_frame sample_send_packet_frame).
  { split; [exact I|]. split; [reflexivity|]. cbv. reflexivity. }
  split; [exact H|].
  exact (proj1 (proj2 (proj2 (proj2 frame_decode_encode_roundtrip)))
           sample_send_packet_frame H).
Defined.

(** C7: decoding a size-wrapped value reads the declared length, bounds a
    sub-slice of that length and decodes the inner value from it; the
    result is the value when the inner decoder uses the whole sub-slice, and
    [DecodeError] when it leaves bytes of the sub-slice over. *)
Theorem size_wrapper_exact_consume {T} (dec : bytes -> result (T * bytes) DecodeError)
    (rb rb1 left' : bytes) (size : Z) (v : T) :
  decode_u32 rb = Ok (size, rb1) ->
  (Z.to_nat size <= length rb1)%nat ->
  dec (take (Z.to_nat size) rb1) = Ok (v, left') ->
  decode_size_wrapper dec rb =
    match left' with
    | [] => Ok (v, drop (Z.to_nat size) rb1)
    | _ :: _ => Err DecodeErr
    end.
Proof.
  intros Hsize Hlen Hdec. unfold decode_size_wrapper.
  rewrite Hsize. cbn [rbind]. unfold fill_buf.
  replace (length rb1 <? Z.to_nat size)%nat with false
    by (symmetry; apply Nat.ltb_ge; lia).
  cbn [rbind]. rewrite Hdec. reflexivity.
Qed.

(** A [PeerPresent] body of 32 bytes with one byte of junk inside the
    declared length 33. *)
Lemma size_wrapper_exact_consume_witness :
  decode_size_wrapper decode_peer_present ([0; 0; 0; 33] ++ repeat 7 32 ++ [9])
  = Err DecodeErr.
Proof.
  apply (size_wrapper_exact_consume decode_peer_present _ (repeat 7 32 ++ [9]) [9] 33
           {| pp_public_key := key_of 7 |}).
  - reflexivity.
  - simpl. lia.
  - reflexivity.
Defined.

(** C10: [FrameType::get_frame_type] is a total function of the buffer: the
    empty buffer gives [Unkonow(0)]; otherwise the first byte gives the frame
    type of the spec's table when it is one of its tags, and [Unkonow] of the
    byte for every other byte. *)
Theorem get_frame_type_total (buf : bytes) :
  get_frame_type buf =
    match buf with
    | [] => Unkonow 0
    | b :: _ =>
        match spec_lookup b spec_frame_types with
        | Some t => t
        | None => Unkonow b
        end
    end.
Proof.
  destruct buf as [|b rest]; [reflexivity|].
  unfold get_frame_type. cbn [head]. rewrite decode_frame_type_cons.
  destruct b as [|p|p]; [reflexivity| |reflexivity].
  do 5 (destruct p as [p|p|]; try reflexivity).
Qed.

(** ** Connection worker and routing service *)

(** C1: client [A] sends [SendPacket{target = B, payload = "hi"}] to a
    relay where [A] and [B] are registered. [B]'s writer emits exactly one
    frame, a [RecvPacket], but its 32-byte key field is [B]'s own key (the
    target), not [A]'s: [write_loop] builds
    [RecvPacket { target, payload }] from the command's [target]. *)
Theorem local_delivery_recv_packet_key :
  relay_frame svc_ab net_ab (key_of 1) false 0 wire_send_hi_to_b 1
  = Some ([[5; 0; 0; 0; 34] ++ repeat 2 32 ++ [104; 105]], None).
Proof. vm_compute. reflexivity. Qed.

(** C2, counterexample: the destination is the mesh peer [key_of 3], known
    only to the mesh directory; the service enqueues nothing on the mesh
    peer's sink and leaves everything unchanged. *)
Lemma send_to_mesh_only_key_not_delivered :
  mesh svc_mesh_only !! key_of 3 = Some 0%nat /\
  command_loop_step svc_mesh_only net_mesh_only
    (Some (SSendPacket (key_of 1) (key_of 3) [120]))
  = Next svc_mesh_only net_mesh_only [] /\
  w_queue <$> net_mesh_only !! 0%nat = Some [].
Proof. vm_compute. repeat split. Qed.

(** C2, amended: a [Send] looks its destination up in the clients directory
    only. On a miss the packet is dropped: state and writers unchanged,
    nothing spawned, whatever the mesh directory holds. On a hit whose
    writer is alive, the deliver command is appended to that writer's queue
    and nothing else changes. *)
Theorem send_looks_up_clients_only (st : DerpService) (net : Writers)
    (src tgt : PublicKey) (payload : bytes) :
  match peers_sinks st !! tgt with
  | None => command_loop_step st net (Some (SSendPacket src tgt payload)) = Next st net []
  | Some sink =>
      match net !! sink with
      | Some w =>
          if w_open w then
            command_loop_step st net (Some (SSendPacket src tgt payload)) =
            Next st (<[sink := {| w_pk := w_pk w; w_can_mesh := w_can_mesh w; w_open := true;
                                  w_queue := w_queue w ++ [WSendPacket src tgt payload] |}]> net) []
          else True
      | None => True
      end
  end.
Proof.
  unfold command_loop_step.
  destruct (peers_sinks st !! tgt) as [sink|] eqn:Hs; [|reflexivity].
  unfold send. destruct (net !! sink) as [w|] eqn:Hw; [|exact I].
  destruct (w_open w); reflexivity.
Qed.

(** C8: on a [WatchConns] frame the reader of a connection admitted without
    mesh key pushes nothing and goes on reading: the connection is not
    terminated. With [can_mesh] it pushes the subscription with its own key
    and sink. *)
Theorem watch_conns_handling (pk : PublicKey) (sink : Sink) (buf : bytes) :
  read_step pk false sink {| ty := WatchConnsT; buffer := buf |} = RNone /\
  read_step pk true sink {| ty := WatchConnsT; buffer := buf |} =
    RPush (SubscribeForPeerChanges pk sink).
Proof. split; reflexivity. Qed.

(** An admitted client: its record is the fresh writer. *)
Ltac admission_ok net :=
  do 3 eexists; exists (fresh (dom net)); split; [reflexivity|];
  split; [apply lookup_insert_eq|]; by rewrite lookup_insert_eq.

(** C3: registration follows the spec's admission table. When the table
    admits, a connected client is inserted in the clients directory with a
    writer whose [can_mesh] is the table's; when the table rejects,
    [add_new_client] fails before creating anything. *)
Theorem add_new_client_admission (st : DerpService) (net : Writers)
    (pk : PublicKey) (mk : option string) :
  match admission_table (meshkey st) mk with
  | Some b =>
      exists st' net' sp sink,
        add_new_client st net true pk mk = Ok (st', net', sp) /\
        peers_sinks st' !! pk = Some sink /\
        w_can_mesh <$> net' !! sink = Some b
  | None => forall connected, exists e, add_new_client st net connected pk mk = Err e
  end.
Proof.
  unfold admission_table, add_new_client, resolve_can_mesh.
  destruct (meshkey st) as [s|], mk as [c|]; cbn [rbind negb].
  - destruct (String.eqb_spec s c) as [->|Hne].
    + rewrite bool_decide_eq_true_2 by reflexivity. admission_ok net.
    + rewrite bool_decide_eq_false_2 by exact Hne. eauto.
  - admission_ok net.
  - eauto.
  - admission_ok net.
Qed.

(** C4, counterexample: on a fresh mesh-enabled relay, a mesh peer
    [key_of 3] registers with the right mesh key and then subscribes with
    [WatchConns]: its key is then in both directories. *)
Lemma mesh_peer_in_both_directories :
  match add_new_client svc_fresh_mesh ∅ true (key_of 3) (Some "k") with
  | Ok (st1, net1, _) =>
      match command_loop_step st1 net1
              (Some (SubscribeForPeerChanges (key_of 3) (fresh (dom (∅ : Writers))))) with
      | Next st2 _ _ =>
          contains_key (peers_sinks st2) (key_of 3) && contains_key (mesh st2) (key_of 3)
      | Return _ => false
      end
  | Err _ => false
  end = true.
Proof. vm_compute. reflexivity. Qed.

Lemma contains_key_false (m : gmap PublicKey Sink) (k : PublicKey) :
  contains_key m k = false <-> m !! k = None.
Proof. unfold contains_key. destruct (m !! k); split; congruence. Qed.

(** C4, amended: the directories are updated independently of each other.
    Registration and [PeerPresent] put the key in the clients directory and
    leave the mesh directory as it was; [Subscribe] puts the peer in the
    mesh directory and leaves the clients directory as it was; the presence
    flood of [Subscribe] names exactly the client keys absent from the mesh
    directory. *)
Theorem directories_updated_independently (st : DerpService) (net : Writers)
    (pk : PublicKey) (sink : Sink) (mk : option string) :
  (match add_new_client st net true pk mk with
   | Ok (st', _, _) => mesh st' = mesh st /\ is_Some (peers_sinks st' !! pk)
   | Err _ => True
   end) /\
  (match command_loop_step st net (Some (SPeerPresent pk sink)) with
   | Next st' _ _ => mesh st' = mesh st /\ is_Some (peers_sinks st' !! pk)
   | Return _ => False
   end) /\
  (match command_loop_step st net (Some (SubscribeForPeerChanges pk sink)) with
   | Next st' _ sp =>
       peers_sinks st' = peers_sinks st /\ mesh st' !! pk = Some sink /\
       (forall k, (sink, WPeerPresent k) ∈ sp <->
                  is_Some (peers_sinks st !! k) /\ mesh st' !! k = None)
   | Return _ => False
   end).
Proof.
  split; [|split].
  - unfold add_new_client.
    destruct (resolve_can_mesh (meshkey st) mk); cbn [rbind negb]; [|exact I].
    split; [reflexivity|]. simpl. rewrite lookup_insert_eq. eauto.
  - simpl. destruct (peers_sinks st !! pk) eqn:E; simpl.
    + split; [reflexivity|]. rewrite E. eauto.
    + split; [reflexivity|]. rewrite lookup_insert_eq. eauto.
  - simpl. split; [reflexivity|]. split; [apply lookup_insert_eq|].
    intros k. unfold notify_about_all_clients.
    rewrite list_elem_of_fmap. split.
    + intros (k' & Heq & Hin). injection Heq as <-.
      apply list_elem_of_filter in Hin as [Hnot Hin].
      apply contains_key_false in Hnot. split; [|exact Hnot].
      apply list_elem_of_fmap in Hin as ([k'' v] & -> & Hin).
      apply elem_of_map_to_list in Hin. simpl. eauto.
    + intros [[v Hv] Hnot]. exists k. split; [reflexivity|].
      apply list_elem_of_filter. split; [by apply contains_key_false|].
      apply list_elem_of_fmap. exists (k, v). split; [reflexivity|].
      by apply elem_of_map_to_list.
Qed.

Lemma command_loop_step_keeps_keys (st : DerpService) (net : Writers)
    (c : option ServiceCommand) :
  match command_loop_step st net c with
  | Next st' _ _ =>
      dom (peers_sinks st) ⊆ dom (peers_sinks st') /\ dom (mesh st) ⊆ dom (mesh st')
  | Return _ => True
  end.
Proof.
  destruct c as [[|src tgt p|pk sink|pk sink]|]; simpl; repeat case_match; simpl;
    rewrite ?dom_insert_L; split; set_solver.
Qed.

(** C5: a [Send] whose destination is registered on a sink whose writer
    has exited (or is gone) ends the command loop with the send error
    ([sink.send(...).await?]): the commands after it are never processed,
    and the service state is returned as it was, the dead entry of the
    destination still in the clients directory. *)
Theorem dead_sink_send_ends_loop (st : DerpService) (net : Writers) (src tgt : PublicKey)
    (payload : bytes) (sink : Sink) (cs : list ServiceCommand) :
  peers_sinks st !! tgt = Some sink ->
  match net !! sink with Some w => w_open w = false | None => True end ->
  command_loop st net (SSendPacket src tgt payload :: cs)
  = (Err (Anyhow "channel closed"), st, net, []).
Proof.
  intros Hsink Hdead. cbn [command_loop]. unfold command_loop_step, send.
  rewrite Hsink. destruct (net !! sink) as [w|]; [|reflexivity].
  by rewrite Hdead.
Qed.

Lemma dead_sink_send_ends_loop_witness :
  peers_sinks svc_dead_b !! key_of 2 = Some 1%nat /\
  command_loop svc_dead_b net_dead_b
    [SSendPacket (key_of 1) (key_of 2) [120]; SSendPacket (key_of 2) (key_of 1) [121]]
  = (Err (Anyhow "channel closed"), svc_dead_b, net_dead_b, []).
Proof.
  split; [vm_compute; reflexivity|].
  apply (dead_sink_send_ends_loop svc_dead_b net_dead_b (key_of 1) (key_of 2) [120] 1%nat
           [SSendPacket (key_of 2) (key_of 1) [121]]); vm_compute; reflexivity.
Defined.

(** [decode_frame] reads its frame type from the first byte, as
    [get_frame_type] does. *)
Lemma decode_frame_type_agrees {T} `{Decode T} (buf rest : bytes) (f : Frame T) :
  decode_frame buf = Ok (f, rest) -> get_frame_type buf = frame_type f.
Proof.
  intros Hd. destruct buf as [|b r]; [discriminate|].
  unfold decode_frame in Hd. rewrite decode_frame_type_cons in Hd. cbn [rbind] in Hd.
  destruct (decode_size_wrapper decode r) as [[v r2]|]; [|discriminate].
  cbn [rbind] in Hd. injection Hd as <- _.
  unfold get_frame_type. cbn [head]. by rewrite decode_frame_type_cons.
Qed.

(** C9, counterexample: the client's [ClientInfo] decrypts to
    [{"version": 3, "meshKey": ""}], which deserializes; the handshake step
    accepts it and yields the client's key. *)
Lemma client_info_version_3_accepted :
  read_client_info open_plain from_slice_version_3 client_info_version_3 server_secret
  = Ok (key_of 5, None).
Proof. vm_compute. reflexivity. Qed.

(** C9, amended: once a [ClientInfo] frame has been decoded and its
    ciphertext decrypts, the handshake step fails exactly when the plaintext
    does not deserialize, and otherwise yields the client's key and mesh key
    whatever the [version] field holds. *)
Theorem read_client_info_checks_shape_only
    (decrypt : PublicKey -> SecretKey -> bytes -> bytes -> option bytes)
    (parse : bytes -> option ClientInfoPayload)
    (buf : bytes) (sk : SecretKey) (f : Frame ClientInfo) (rest pt : bytes) :
  decode_frame buf = Ok (f, rest) ->
  frame_type f = ClientInfoT ->
  decrypt (ci_public_key (inner f)) sk (ci_nonce (inner f)) (ci_cipher_text (inner f)) = Some pt ->
  match parse pt with
  | None => read_client_info decrypt parse buf sk = Err (Anyhow "Client info parsing")
  | Some payload =>
      read_client_info decrypt parse buf sk =
      Ok (ci_public_key (inner f),
          if String.eqb (payload_meshkey payload) "" then None
          else Some (payload_meshkey payload))
  end.
Proof.
  intros Hd Hty Hdec. unfold read_client_info.
  rewrite (decode_frame_type_agrees _ _ _ Hd), Hty, Hd.
  unfold complete. rewrite Hdec.
  destruct (parse pt); reflexivity.
Qed.

Lemma read_client_info_checks_shape_only_witness :
  read_client_info open_plain from_slice_version_3 client_info_version_3 server_secret
  = Ok (key_of 5, None).
Proof.
  refine (read_client_info_checks_shape_only open_plain from_slice_version_3
            client_info_version_3 server_secret client_info_frame_version_3 []
            json_version_3 _ _ _); vm_compute; reflexivity.
Defined.

(** * Further properties of the code *)

(** ** The codec crate *)

Lemma decode_u16_app (n : Z) (r : bytes) :
  0 <= n < 2 ^ 16 -> decode_u16 (u16_to_be_bytes n ++ r) = Ok (n, r).
Proof.
  intros Hn. unfold decode_u16. rewrite fill_buf_app by reflexivity. cbn [rbind].
  do 2 f_equal. unfold u16_to_be_bytes.
  change 255 with (Z.ones 8). rewrite !Z.land_ones by lia.
  rewrite Z.shiftr_div_pow2, Z.shiftl_mul_pow2 by lia.
  rewrite (Z.mod_small (n / 2 ^ 8))
    by (split; [apply Z.div_pos; lia | apply Z.div_lt_upper_bound; lia]).
  pose proof (Z.div_mod n (2 ^ 8) ltac:(lia)). lia.
Qed.

(** X1: a [u16] in range decodes back from the two bytes
    [impl Encode for u16] writes, and the decoder leaves what follows
    them. *)
Theorem u16_encode_decode (n : Z) (r : bytes) :
  0 <= n < 2 ^ 16 -> decode_u16 (u16_to_be_bytes n ++ r) = Ok (n, r).
Proof.
  apply decode_u16_app.
Qed.

Lemma u16_encode_decode_witness :
  decode_u16 (u16_to_be_bytes 513 ++ [7]) = Ok (513, [7]).
Proof. apply u16_encode_decode. lia. Defined.

(** X2: [impl Decode for u32] fails exactly on a buffer of fewer than four
    bytes; otherwise it reads the first four, and the number it returns is
    below [2^32] and encodes back to exactly those four bytes. *)
Theorem decode_u32_bytes (rb : bytes) :
  Forall (fun b => 0 <= b < 256) rb ->
  match decode_u32 rb with
  | Ok (n, rest) => (4 <= length rb)%nat /\ 0 <= n < 2 ^ 32 /\ u32_to_be_bytes n ++ rest = rb
  | Err _ => (length rb < 4)%nat
  end.
Proof.
  intros Hb.
  destruct rb as [|b0 [|b1 [|b2 [|b3 rest]]]]; cbn; try lia.
  apply Forall_cons in Hb as [H0 Hb]. apply Forall_cons in Hb as [H1 Hb].
  apply Forall_cons in Hb as [H2 Hb]. apply Forall_cons in Hb as [H3 _].
  rewrite take_0, drop_0.
  split; [lia|].
  rewrite !Z.shiftl_mul_pow2 by lia.
  split; [lia|].
  unfold u32_to_be_bytes. change 255 with (Z.ones 8). rewrite !Z.land_ones by lia.
  rewrite !Z.shiftr_div_pow2 by lia.
  repeat f_equal; Z.div_mod_to_equations; lia.
Qed.

Lemma decode_u32_bytes_witness :
  let rb := [1; 2; 3; 4; 5] in
  Forall (fun b => 0 <= b < 256) rb /\
  match decode_u32 rb with
  | Ok (n, rest) => (4 <= length rb)%nat /\ 0 <= n < 2 ^ 32 /\ u32_to_be_bytes n ++ rest = rb
  | Err _ => (length rb < 4)%nat
  end.
Proof.
  intros rb. assert (H : Forall (fun b => 0 <= b < 256) rb) by (repeat constructor; lia).
  split; [exact H | exact (decode_u32_bytes rb H)].
Defined.

(** X3: decoding what [impl Encode for Option<T>] writes gives the option
    back, except for [Some v] when [v] encodes to no byte at all (as [()]
    does): the empty buffer decodes as [None]. *)
Theorem option_encode_decode {T} (enc : T -> bytes)
    (dec : bytes -> result (T * bytes) DecodeError) (o : option T) :
  (forall v, o = Some v -> dec (enc v) = Ok (v, [])) ->
  decode_option dec (encode_option enc o) =
    match o with
    | Some v => match enc v with [] => Ok (None, []) | _ :: _ => Ok (Some v, []) end
    | None => Ok (None, [])
    end.
Proof.
  intros Hdec. destruct o as [v|]; [|reflexivity].
  specialize (Hdec v eq_refl). unfold encode_option, decode_option.
  destruct (enc v) as [|b bs]; [reflexivity|].
  rewrite Hdec. reflexivity.
Qed.

(** [Some(())] is written as nothing and read back as [None]. *)
Lemma option_encode_decode_witness :
  decode_option decode_unit (encode_option encode_unit (Some tt)) = Ok (None, []).
Proof. apply (option_encode_decode encode_unit decode_unit (Some tt)). by intros [] _. Defined.

Lemma decode_u8_app (n : Z) (r : bytes) : decode_u8 (encode_u8 n ++ r) = Ok (n, r).
Proof. reflexivity. Qed.

Lemma opaque_roundtrip (bound : Z) (enc_size : Z -> bytes)
    (dec_size : bytes -> result (Z * bytes) DecodeError) (v r : bytes) :
  (forall n r, 0 <= n < bound -> dec_size (enc_size n ++ r) = Ok (n, r)) ->
  match encode_opaque bound enc_size v with
  | Some bs => decode_opaque dec_size (bs ++ r) = Ok (v, r)
  | None => bound <= Z.of_nat (length v)
  end.
Proof.
  intros Hsize. unfold encode_opaque.
  destruct (Z.of_nat (length v) <? bound) eqn:Hlt.
  - apply Z.ltb_lt in Hlt. unfold decode_opaque.
    rewrite <- app_assoc, Hsize by lia. cbn [rbind].
    rewrite Nat2Z.id. by apply fill_buf_app.
  - by apply Z.ltb_ge in Hlt.
Qed.

(** X4: [Opaque<u8>] and [Opaque<u16>]: encoding panics
    exactly when the length does not fit the size type; otherwise decoding
    the encoding gives the bytes back and leaves what follows. *)
Theorem opaque_encode_decode (v r : bytes) :
  match encode_opaque_u8 v with
  | Some bs => decode_opaque_u8 (bs ++ r) = Ok (v, r)
  | None => 2 ^ 8 <= Z.of_nat (length v)
  end /\
  match encode_opaque_u16 v with
  | Some bs => decode_opaque_u16 (bs ++ r) = Ok (v, r)
  | None => 2 ^ 16 <= Z.of_nat (length v)
  end.
Proof.
  split; apply opaque_roundtrip; intros n r' Hn.
  - apply decode_u8_app.
  - by apply decode_u16_app.
Qed.

(** X5: [impl Decode for Vec<T>] reads back what [impl Encode for Vec<T>]
    wrote, element by element and using the whole buffer, when every
    element's encoding is non-empty and decodes back to it whatever follows;
    the loop then runs once per element. *)
Theorem vec_encode_decode {T} (enc : T -> bytes)
    (dec : bytes -> result (T * bytes) DecodeError) (vs : list T) (fuel : nat) :
  Forall (fun v => enc v <> [] /\ forall r, dec (enc v ++ r) = Ok (v, r)) vs ->
  (length vs <= fuel)%nat ->
  decode_vec dec fuel (encode_vec enc vs) = Some (Ok (vs, [])).
Proof.
  intros Hvs. revert fuel. induction Hvs as [|v vs [Hne Hdec] Hvs IH]; intros fuel Hfuel.
  - by destruct fuel.
  - destruct fuel as [|fuel']; [simpl in Hfuel; lia|].
    unfold encode_vec. cbn [map concat]. fold (encode_vec enc vs).
    destruct (enc v) as [|b bs] eqn:Ev; [done|].
    rewrite <- app_comm_cons. cbn [decode_vec].
    rewrite app_comm_cons, Hdec.
    rewrite IH by (simpl in Hfuel; lia). reflexivity.
Qed.

(** Three [u32]s in a [Vec<u32>]. *)
Lemma vec_encode_decode_witness :
  decode_vec decode_u32 3 (encode_vec u32_to_be_bytes [1; 65536; 4294967295])
  = Some (Ok ([1; 65536; 4294967295], [])).
Proof.
  apply vec_encode_decode; [|simpl; lia].
  repeat constructor; try discriminate; intros r; apply decode_u32_app; lia.
Defined.

(** X6: when the element decoder reads nothing from a non-empty buffer (as
    [impl Decode for ()] does), the [while] loop of
    [impl Decode for Vec<T>] never ends: after any number of iterations it
    is still running. *)
Theorem vec_decode_no_progress {T} (dec : bytes -> result (T * bytes) DecodeError)
    (rb : bytes) (v : T) (fuel : nat) :
  rb <> [] -> dec rb = Ok (v, rb) -> decode_vec dec fuel rb = None.
Proof.
  intros Hne Hdec. induction fuel as [|fuel IH];
    destruct rb as [|b r]; try done; cbn [decode_vec]; rewrite Hdec, IH; reflexivity.
Qed.

(** [Vec<()>] on one byte. *)
Lemma vec_decode_no_progress_witness : decode_vec decode_unit 100 [0] = None.
Proof. apply (vec_decode_no_progress decode_unit [0] tt); done. Defined.

Lemma land_shiftr_ones_mod (n : Z) (k : Z) :
  0 <= k -> k + 8 <= 24 ->
  Z.land (Z.shiftr (n mod 2 ^ 24) k) 255 = Z.land (Z.shiftr n k) 255.
Proof.
  intros Hk Hk8. change 255 with (Z.ones 8).
  apply Z.bits_inj'. intros i Hi.
  rewrite !Z.land_spec, !Z.testbit_ones_nonneg by lia.
  destruct (Z.ltb_spec i 8) as [Hlt|Hge]; [|rewrite !andb_false_r; reflexivity].
  rewrite !andb_true_r, !Z.shiftr_spec by lia.
  apply Z.mod_pow2_bits_low. lia.
Qed.

(** X7: [u24::try_from] (from a [usize]) refuses exactly the values from
    [2^24] on, and [impl Encode for u24] writes the three low bytes of the
    value, big endian, so a value [try_from] accepts is written without
    loss; a [u24] built directly around a larger [u32] loses its top
    byte. *)
Theorem u24_try_from_encode (value : Z) :
  0 <= value < 2 ^ 64 ->
  match u24_try_from value with
  | Ok v => value < 2 ^ 24 /\ u32_of_be (0 :: encode_u24 v) = value
  | Err _ => 2 ^ 24 <= value
  end /\
  (value < 2 ^ 32 -> encode_u24 (mk_u24 value) = encode_u24 (mk_u24 (value mod 2 ^ 24))).
Proof.
  intros Hv. split.
  - unfold u24_try_from. destruct (Z.geb_spec value (2 ^ 24)) as [Hge|Hlt]; [lia|].
    split; [lia|]. unfold encode_u24, u32_to_be_bytes, u32_of_be. cbn [drop u24_0].
    change 255 with (Z.ones 8). rewrite !Z.land_ones by lia.
    rewrite !Z.shiftr_div_pow2, !Z.shiftl_mul_pow2 by lia.
    Z.div_mod_to_equations. lia.
  - intros Hv32. unfold encode_u24, u32_to_be_bytes. cbn [drop u24_0].
    rewrite !land_shiftr_ones_mod by lia.
    rewrite <- (Z.shiftr_0_r (value mod 2 ^ 24)), land_shiftr_ones_mod, Z.shiftr_0_r by lia.
    reflexivity.
Qed.

Lemma u24_try_from_encode_witness :
  0 <= 70000 < 2 ^ 64 /\
  match u24_try_from 70000 with
  | Ok v => 70000 < 2 ^ 24 /\ u32_of_be (0 :: encode_u24 v) = 70000
  | Err _ => 2 ^ 24 <= 70000
  end /\
  encode_u24 (mk_u24 70000) = encode_u24 (mk_u24 (70000 mod 2 ^ 24)).
Proof.
  assert (H : 0 <= 70000 < 2 ^ 64) by lia.
  destruct (u24_try_from_encode 70000 H) as [H1 H2].
  refine (conj H (conj H1 (H2 _))). lia.
Defined.

Lemma frame_type_of_tag_cases (tag : Z) :
  frame_type_of_tag tag = Unkonow tag \/
  (known (frame_type_of_tag tag) /\ frame_type_tag (frame_type_of_tag tag) = tag).
Proof.
  destruct tag as [|p|p]; [left; reflexivity| |left; reflexivity].
  do 5 (destruct p as [p|p|];
        try (left; reflexivity); try (right; split; [exact I | reflexivity])).
Qed.

Lemma known_tagged (t : FrameType) : known t -> t ∈ tagged_frame_types.
Proof. destruct t; intros Hk; try done; unfold tagged_frame_types; set_solver. Qed.

(** X8: the derived codec of [FrameType] reads back every tagged variant
    from the byte it writes, and [Unkonow(tag)] exactly when [tag] is none
    of the variants' tags; when [tag] is the tag of a variant, [Unkonow(tag)]
    is read back as that variant: [Unkonow(0x01)] is written as [0x01] and
    read back as [ServerKey]. *)
Theorem frame_type_encode_decode (t : FrameType) (r : bytes) :
  (decode_frame_type (encode_frame_type t ++ r) = Ok (t, r) <->
   match t with
   | Unkonow tag => Forall (fun k => frame_type_tag k <> tag) tagged_frame_types
   | _ => True
   end) /\
  (forall tag k, t = Unkonow tag -> k ∈ tagged_frame_types -> frame_type_tag k = tag ->
   decode_frame_type (encode_frame_type t ++ r) = Ok (k, r)).
Proof.
  unfold encode_frame_type. rewrite <- app_comm_cons, decode_frame_type_cons. split.
  - destruct t as [| | | | | | | | | | | | | | |tag]; try (split; [done|reflexivity]).
    cbn [frame_type_tag]. split.
    + intros Heq. injection Heq as Heq.
      repeat constructor; intros <-; discriminate Heq.
    + intros Hall. destruct (frame_type_of_tag_cases tag) as [->|[Hk Htag]]; [reflexivity|].
      exfalso. rewrite Forall_forall in Hall.
      exact (Hall _ (known_tagged _ Hk) Htag).
  - intros tag k -> Hk <-. cbn [frame_type_tag]. rewrite frame_type_roundtrip; [reflexivity|].
    unfold tagged_frame_types in Hk.
    repeat (apply elem_of_cons in Hk; destruct Hk as [->|Hk]; [exact I|]).
    by apply not_elem_of_nil in Hk.
Qed.

(** ** The stream reader, [inout.rs] *)

Lemma next_message_eq (data : bytes) :
  next_message data =
    if (length data <? HEADER_SIZE)%nat then Ok (InsufficientData, data)
    else
      let message_size := (HEADER_SIZE + header_size_field data)%nat in
      if (message_size <=? length data)%nat
      then Ok (AMessage {| ty := get_frame_type data; buffer := take message_size data |},
               drop message_size data)
      else Ok (InsufficientData, data).
Proof.
  unfold next_message. destruct (length data <? HEADER_SIZE)%nat eqn:E; [reflexivity|].
  destruct data as [|b0 [|b1 [|b2 [|b3 [|b4 rest]]]]]; try discriminate E.
  reflexivity.
Qed.

(** X9: [InputBuffer::next_message] never fails (its "Decode error" branch
    is unreachable: a five-byte header always decodes). It returns
    [InsufficientData], the data untouched, exactly when the data is shorter
    than the header or than the header plus the size it declares; otherwise
    it splits the data into the message (the whole frame, header included,
    of the frame type of the first byte) and the rest. *)
Theorem next_message_split (data : bytes) :
  match next_message data with
  | Ok (InsufficientData, data') =>
      data' = data /\
      ((length data < HEADER_SIZE)%nat \/
       (length data < HEADER_SIZE + header_size_field data)%nat)
  | Ok (AMessage m, rest) =>
      buffer m ++ rest = data /\ ty m = get_frame_type data /\
      length (buffer m) = (HEADER_SIZE + header_size_field data)%nat
  | Err _ => False
  end.
Proof.
  rewrite next_message_eq.
  destruct (Nat.ltb_spec (length data) HEADER_SIZE); [split; [reflexivity|left; lia]|].
  cbv zeta. destruct (Nat.leb_spec (HEADER_SIZE + header_size_field data) (length data)).
  - split; [apply take_drop|]. split; [reflexivity|]. cbn [buffer]. rewrite length_take. lia.
  - split; [reflexivity|right; lia].
Qed.

Lemma header_size_field_frame (tag n : Z) (rest : bytes) :
  0 <= n < 2 ^ 32 ->
  header_size_field (tag :: u32_to_be_bytes n ++ rest) = Z.to_nat n.
Proof.
  intros Hn. unfold header_size_field. cbn [drop]. rewrite drop_0.
  change 4%nat with (length (u32_to_be_bytes n)). rewrite take_app_length.
  by rewrite u32_roundtrip.
Qed.

Lemma encode_frame_some {T} `{Encode T} (f : Frame T) (bs : bytes) :
  encode_frame f = Some bs ->
  Z.of_nat (length (encode (inner f))) < 2 ^ 32 /\
  bs = frame_type_tag (frame_type f)
       :: u32_to_be_bytes (Z.of_nat (length (encode (inner f)))) ++ encode (inner f).
Proof.
  unfold encode_frame, encode_size_wrapper. cbv zeta.
  destruct (Z.of_nat (length (encode (inner f))) <? 2 ^ 32) eqn:Hlt; [|discriminate].
  apply Z.ltb_lt in Hlt. intros Hbs. simpl in Hbs. injection Hbs as <-. done.
Qed.

Lemma next_message_encoded {T} `{Encode T} (f : Frame T) (bs r : bytes) :
  known (frame_type f) -> encode_frame f = Some bs ->
  next_message (bs ++ r) = Ok (AMessage {| ty := frame_type f; buffer := bs |}, r).
Proof.
  intros Hk Hbs. apply encode_frame_some in Hbs as [Hlt ->].
  set (body := encode (inner f)) in *.
  rewrite next_message_eq. rewrite <- app_comm_cons, <- app_assoc.
  rewrite header_size_field_frame by lia. rewrite Nat2Z.id.
  cbn [length]. rewrite !length_app.
  assert (Hu : length (u32_to_be_bytes (Z.of_nat (length body))) = 4%nat) by reflexivity.
  rewrite Hu. unfold HEADER_SIZE.
  replace (S (4 + (length body + length r)) <? 5)%nat with false
    by (symmetry; apply Nat.ltb_ge; lia).
  cbv zeta.
  replace (5 + length body <=? S (4 + (length body + length r)))%nat with true
    by (symmetry; apply Nat.leb_le; lia).
  unfold get_frame_type. cbn [head]. rewrite decode_frame_type_cons.
  rewrite frame_type_roundtrip by exact Hk.
  rewrite app_assoc, app_comm_cons.
  assert (Hl : (5 + length body)%nat =
               length (frame_type_tag (frame_type f) :: u32_to_be_bytes (Z.of_nat (length body)) ++ body)).
  { cbn [length]. rewrite length_app, Hu. lia. }
  rewrite Hl, take_app_length, drop_app_length. reflexivity.
Qed.

(** X10: the stream reader cuts an encoded frame out of its input exactly:
    on the bytes [encode] writes for a frame of a tagged type, followed by
    anything, [next_message] returns a message of that frame type whose
    buffer is those bytes, and leaves what follows. *)
Theorem next_message_frame {T} `{Encode T} (f : Frame T) (bs r : bytes) :
  known (frame_type f) -> encode_frame f = Some bs ->
  next_message (bs ++ r) = Ok (AMessage {| ty := frame_type f; buffer := bs |}, r).
Proof. apply next_message_encoded. Qed.

Lemma next_message_frame_witness :
  next_message (default [] (encode_frame sample_send_packet_frame) ++ [9; 9])
  = Ok (AMessage {| ty := SendPacketT; buffer := default [] (encode_frame sample_send_packet_frame) |},
        [9; 9]).
Proof.
  apply (next_message_frame sample_send_packet_frame); [exact I | reflexivity].
Defined.

Lemma next_message_cases (d : bytes) :
  next_message d = Ok (InsufficientData, d) \/
  exists m d', next_message d = Ok (AMessage m, d').
Proof.
  rewrite next_message_eq.
  destruct (length d <? HEADER_SIZE)%nat; [by left|]. cbv zeta.
  destruct (_ <=? length d)%nat; [right; eauto | by left].
Qed.

Lemma next_message_app_message (d e : bytes) (m : Message) (d' : bytes) :
  next_message d = Ok (AMessage m, d') -> next_message (d ++ e) = Ok (AMessage m, d' ++ e).
Proof.
  rewrite !next_message_eq.
  destruct (Nat.ltb_spec (length d) HEADER_SIZE) as [|Hge]; [discriminate|]. cbv zeta.
  assert (Hh : header_size_field (d ++ e) = header_size_field d).
  { unfold header_size_field. rewrite drop_app_le by (unfold HEADER_SIZE in Hge; lia).
    rewrite take_app_le; [reflexivity|]. rewrite length_drop. unfold HEADER_SIZE in Hge. lia. }
  assert (Hg : get_frame_type (d ++ e) = get_frame_type d).
  { destruct d as [|b d]; [simpl in Hge; unfold HEADER_SIZE in Hge; lia|]. reflexivity. }
  rewrite Hh, Hg.
  destruct (Nat.leb_spec (HEADER_SIZE + header_size_field d) (length d)) as [Hle|]; [|discriminate].
  intros E. injection E as <- <-.
  rewrite length_app.
  destruct (Nat.ltb_spec (length d + length e) HEADER_SIZE); [lia|].
  destruct (Nat.leb_spec (HEADER_SIZE + header_size_field d) (length d + length e)); [|lia].
  rewrite take_app_le, drop_app_le by exact Hle. reflexivity.
Qed.

(** X11: the message [DerpReader::get_next_message] returns does not
    depend on how the stream is cut into reads. With reads delivering the
    successive chunks of a stream, it returns the first message of the
    buffered input followed by the stream, the bytes after that message
    being left in the input buffer and the unread chunks; when those bytes
    hold no complete frame, it is still blocked in a read with all of them
    buffered. Reads of zero bytes at end of stream change nothing: a stream
    that ends in the middle of a frame leaves it reading forever, without
    error. *)
Theorem get_next_message_chunking (input : bytes) (chunks : list bytes) :
  match next_message (input ++ concat chunks) with
  | Ok (AMessage m, rest) =>
      exists input' chunks',
        get_next_message input (Ok <$> chunks) = Got m input' (Ok <$> chunks') /\
        input' ++ concat chunks' = rest
  | Ok (InsufficientData, _) =>
      get_next_message input (Ok <$> chunks) = Waiting (input ++ concat chunks)
  | Err _ => False
  end.
Proof.
  revert input. induction chunks as [|c cs IH]; intros input.
  - rewrite app_nil_r. cbn.
    destruct (next_message_cases input) as [E|(m & d' & E)]; rewrite E.
    + reflexivity.
    + exists d', []. rewrite app_nil_r. split; reflexivity.
  - cbn [concat fmap list_fmap].
    destruct (next_message_cases input) as [E|(m & d' & E)].
    + specialize (IH (input ++ c)). rewrite <- app_assoc in IH.
      cbn [get_next_message]. rewrite E. exact IH.
    + rewrite (next_message_app_message _ _ _ _ E).
      cbn [get_next_message]. rewrite E.
      exists d', (c :: cs). split; reflexivity.
Qed.

(** ** The connection worker, [client.rs], and the mesh client,
    [mesh_client.rs] *)

Lemma decode_encoded_frame {T} `{Encode T} `{Decode T} (f : Frame T) (bs : bytes) :
  known (frame_type f) -> decode (encode (inner f)) = Ok (inner f, []) ->
  encode_frame f = Some bs -> decode_frame bs = Ok (f, []).
Proof. intros Hk Hd Hb. rewrite <- (app_nil_r bs). by apply frame_roundtrip. Qed.

Lemma encode_frame_fits {T} `{Encode T} (f : Frame T) :
  Z.of_nat (length (encode (inner f))) < 2 ^ 32 -> exists bs, encode_frame f = Some bs.
Proof.
  intros Hlt. unfold encode_frame, encode_size_wrapper. cbv zeta.
  rewrite (proj2 (Z.ltb_lt _ _) Hlt). simpl. eauto.
Qed.

(** Two keys whose first bytes differ are different. *)
Ltac keys_differ :=
  let H := fresh in
  intros H; apply (f_equal (fun k => head (pk_bytes k))) in H; vm_compute in H; discriminate H.

(** X12: what the reader of a connection pushes on the service channel.
    A [Send] always carries the connection's own key as its source,
    whatever the frame says, and the target and payload of the decoded
    [SendPacket]; a subscription carries the connection's own key and
    writer and only comes from a [can_mesh] connection; a [PeerPresent]
    registers the key the decoded frame announces to the connection's own
    writer, and is pushed from any connection, mesh or not, whenever its
    frame decodes. The reader never pushes [Stop]. A decode error only
    comes from a [SendPacket] or [PeerPresent] frame that does not decode,
    and every frame type other than [SendPacket], [WatchConns] and
    [PeerPresent] makes it panic. *)
Theorem read_step_commands (pk : PublicKey) (can_mesh : bool) (sink : Sink) (m : Message) :
  match read_step pk can_mesh sink m with
  | RPush (SSendPacket src tgt p) =>
      src = pk /\ ty m = SendPacketT /\
      exists f rest, decode_frame (T:=SendPacket) (buffer m) = Ok (f, rest) /\
                     tgt = sp_target (inner f) /\ p = sp_payload (inner f)
  | RPush (SubscribeForPeerChanges k s) =>
      k = pk /\ s = sink /\ can_mesh = true /\ ty m = WatchConnsT
  | RPush (SPeerPresent k s) =>
      s = sink /\ ty m = PeerPresentT /\
      exists f rest, decode_frame (T:=PeerPresent) (buffer m) = Ok (f, rest) /\
                     k = pp_public_key (inner f)
  | RPush Stop => False
  | RNone => ty m = WatchConnsT /\ can_mesh = false
  | RFail e =>
      e = Anyhow "Decode error" /\
      ((ty m = SendPacketT /\ exists de, decode_frame (T:=SendPacket) (buffer m) = Err de) \/
       (ty m = PeerPresentT /\ exists de, decode_frame (T:=PeerPresent) (buffer m) = Err de))
  | RPanic => ty m <> SendPacketT /\ ty m <> WatchConnsT /\ ty m <> PeerPresentT
  end /\
  (ty m = PeerPresentT -> forall f rest,
   decode_frame (T:=PeerPresent) (buffer m) = Ok (f, rest) ->
   read_step pk can_mesh sink m = RPush (SPeerPresent (pp_public_key (inner f)) sink)).
Proof.
  split.
  - unfold read_step. destruct (ty m) eqn:E; cbv beta iota; try (repeat split; congruence).
    + destruct (decode_frame (T:=SendPacket) (buffer m)) as [[f rest]|de] eqn:Hd.
      * split; [reflexivity|]. split; [reflexivity|]. exists f, rest. auto.
      * split; [reflexivity|]. left. eauto.
    + destruct (decode_frame (T:=PeerPresent) (buffer m)) as [[f rest]|de] eqn:Hd.
      * split; [reflexivity|]. split; [reflexivity|]. exists f, rest. auto.
      * split; [reflexivity|]. right. eauto.
    + destruct can_mesh; cbn; auto.
  - intros E f rest Hd. unfold read_step. rewrite E, Hd. reflexivity.
Qed.

(** X13: a [SendPacket] frame sent by a client, followed by anything on its
    connection, is cut out of the stream and turned into a [Send] of its
    target and payload, whose source is the connection's key. *)
Theorem reader_send_packet (pk : PublicKey) (can_mesh : bool) (sink : Sink)
    (sp : SendPacket) (bs r : bytes) :
  well_formed sp -> encode_frame (mkFrame SendPacketT sp) = Some bs ->
  next_message (bs ++ r) = Ok (AMessage {| ty := SendPacketT; buffer := bs |}, r) /\
  read_step pk can_mesh sink {| ty := SendPacketT; buffer := bs |} =
    RPush (SSendPacket pk (sp_target sp) (sp_payload sp)).
Proof.
  intros Hwf Hbs. split.
  - exact (next_message_encoded (mkFrame SendPacketT sp) bs r I Hbs).
  - unfold read_step. cbn [ty buffer].
    rewrite (decode_encoded_frame (mkFrame SendPacketT sp) bs I
               (send_packet_body_roundtrip sp Hwf) Hbs).
    reflexivity.
Qed.

Lemma reader_send_packet_witness :
  let bs := default [] (encode_frame sample_send_packet_frame) in
  next_message (bs ++ [7]) = Ok (AMessage {| ty := SendPacketT; buffer := bs |}, [7]) /\
  read_step (key_of 1) false 0 {| ty := SendPacketT; buffer := bs |} =
    RPush (SSendPacket (key_of 1) (key_of 2) [104; 105]).
Proof.
  intros bs.
  apply (reader_send_packet (key_of 1) false 0 (inner sample_send_packet_frame) bs [7]);
    reflexivity.
Defined.

Lemma peer_present_then_send (st : DerpService) (net : Writers) (w : Writer) (s : Sink)
    (k src : PublicKey) (payload : bytes) :
  peers_sinks st !! k = None -> net !! s = Some w -> w_open w = true ->
  command_loop_step st net (Some (SPeerPresent k s)) =
    Next (set_peers_sinks st (<[k := s]> (peers_sinks st))) net [] /\
  command_loop_step (set_peers_sinks st (<[k := s]> (peers_sinks st))) net
      (Some (SSendPacket src k payload)) =
    Next (set_peers_sinks st (<[k := s]> (peers_sinks st)))
      (<[s := {| w_pk := w_pk w; w_can_mesh := w_can_mesh w; w_open := true;
                 w_queue := w_queue w ++ [WSendPacket src k payload] |}]> net) [].
Proof.
  intros Hk Hw Ho. split.
  - simpl. by rewrite Hk.
  - simpl. rewrite lookup_insert_eq. unfold send. by rewrite Hw, Ho.
Qed.

(** X14: a client admitted without mesh key can claim any key that is not
    registered: its [PeerPresent] frame for that key is accepted, the key is
    registered to the client's own writer, the packets sent to that key are
    then queued on that writer, and the writer panics on them (the
    [todo!] for a packet to another key on a connection without
    [can_mesh]). *)
Theorem peer_present_claims_key (st : DerpService) (net : Writers) (w : Writer) (sink : Sink)
    (k src : PublicKey) (payload bs r : bytes) :
  well_formed k -> peers_sinks st !! k = None -> net !! sink = Some w -> w_open w = true ->
  w_can_mesh w = false -> k <> w_pk w ->
  encode_frame (mkFrame PeerPresentT {| pp_public_key := k |}) = Some bs ->
  let m := {| ty := PeerPresentT; buffer := bs |} in
  let st1 := set_peers_sinks st (<[k := sink]> (peers_sinks st)) in
  next_message (bs ++ r) = Ok (AMessage m, r) /\
  read_step (w_pk w) (w_can_mesh w) sink m = RPush (SPeerPresent k sink) /\
  command_loop_step st net (Some (SPeerPresent k sink)) = Next st1 net [] /\
  command_loop_step st1 net (Some (SSendPacket src k payload)) =
    Next st1 (<[sink := {| w_pk := w_pk w; w_can_mesh := false; w_open := true;
                          w_queue := w_queue w ++ [WSendPacket src k payload] |}]> net) [] /\
  write_step (w_pk w) (w_can_mesh w) (WSendPacket src k payload) = WPanic.
Proof.
  intros Hwf Hk Hw Ho Hcm Hne Hbs m st1.
  destruct (peer_present_then_send st net w sink k src payload Hk Hw Ho) as [H1 H2].
  rewrite Hcm in H2.
  split; [exact (next_message_encoded (mkFrame PeerPresentT {| pp_public_key := k |}) bs r I Hbs)|].
  split.
  - unfold read_step, m. cbn [ty buffer].
    rewrite (decode_encoded_frame (mkFrame PeerPresentT {| pp_public_key := k |}) bs I
               (peer_present_body_roundtrip {| pp_public_key := k |} Hwf) Hbs).
    reflexivity.
  - split; [exact H1|]. split; [exact H2|].
    rewrite Hcm. unfold write_step. rewrite bool_decide_true by exact Hne. reflexivity.
Qed.

Lemma peer_present_claims_key_witness :
  let bs := default [] (encode_frame (mkFrame PeerPresentT {| pp_public_key := key_of 5 |})) in
  let m := {| ty := PeerPresentT; buffer := bs |} in
  let st1 := set_peers_sinks svc_ab (<[key_of 5 := 0%nat]> (peers_sinks svc_ab)) in
  next_message (bs ++ []) = Ok (AMessage m, []) /\
  read_step (key_of 1) false 0 m = RPush (SPeerPresent (key_of 5) 0) /\
  command_loop_step svc_ab net_ab (Some (SPeerPresent (key_of 5) 0)) = Next st1 net_ab [] /\
  command_loop_step st1 net_ab (Some (SSendPacket (key_of 2) (key_of 5) [1])) =
    Next st1 (<[0%nat := {| w_pk := key_of 1; w_can_mesh := false; w_open := true;
                            w_queue := [WSendPacket (key_of 2) (key_of 5) [1]] |}]> net_ab) [] /\
  write_step (key_of 1) false (WSendPacket (key_of 2) (key_of 5) [1]) = WPanic.
Proof.
  intros bs.
  refine (peer_present_claims_key svc_ab net_ab (open_writer (key_of 1) false) 0
            (key_of 5) (key_of 2) [1] bs [] _ _ _ _ _ _ _);
    [reflexivity | vm_compute; reflexivity | vm_compute; reflexivity | reflexivity
    | reflexivity | keys_differ | reflexivity].
Defined.

(** X15: the writer of a mesh connection and the mesh client's reader
    agree on the link. A packet for another key, written by a [can_mesh]
    writer as a [ForwardPacket] frame, is read back by the mesh client of
    the other relay as a [Send] with the original source, target and
    payload; a presence announcement written by any writer is read back as
    a [PeerPresent] registering the key to the mesh client's writer. *)
Theorem mesh_link_roundtrip (pk src tgt k : PublicKey) (can_mesh : bool)
    (payload r : bytes) (sender : Sink) :
  well_formed src -> well_formed tgt -> well_formed k -> tgt <> pk ->
  Z.of_nat (length payload) + 64 < 2 ^ 32 ->
  (exists out, write_step pk true (WSendPacket src tgt payload) = WEmit out /\
     exists m, next_message (out ++ r) = Ok (AMessage m, r) /\
       mesh_read_step sender m = RPush (SSendPacket src tgt payload)) /\
  (exists out, write_step pk can_mesh (WPeerPresent k) = WEmit out /\
     exists m, next_message (out ++ r) = Ok (AMessage m, r) /\
       mesh_read_step sender m = RPush (SPeerPresent k sender)).
Proof.
  intros Hs Ht Hk Hne Hlen. split.
  - set (f := mkFrame ForwardPacketT
                {| fp_source := src; fp_target := tgt; fp_payload := payload |}).
    destruct (encode_frame_fits f) as [bs Hbs].
    { change (encode (inner f)) with (pk_bytes src ++ pk_bytes tgt ++ payload).
      unfold well_formed, wf_public_key in Hs, Ht.
      rewrite !length_app, Hs, Ht. lia. }
    exists bs. unfold write_step. rewrite bool_decide_true by exact Hne.
    unfold emit. fold f. rewrite Hbs. split; [reflexivity|].
    exists {| ty := ForwardPacketT; buffer := bs |}.
    split; [exact (next_message_encoded f bs r I Hbs)|].
    unfold mesh_read_step. cbn [ty buffer].
    rewrite (decode_encoded_frame f bs I
               (forward_packet_body_roundtrip (inner f) (conj Hs Ht)) Hbs).
    reflexivity.
  - set (f := mkFrame PeerPresentT {| pp_public_key := k |}).
    destruct (encode_frame_fits f) as [bs Hbs].
    { change (encode (inner f)) with (pk_bytes k).
      unfold well_formed, wf_public_key in Hk. rewrite Hk. lia. }
    exists bs. unfold write_step, emit. fold f. rewrite Hbs. split; [reflexivity|].
    exists {| ty := PeerPresentT; buffer := bs |}.
    split; [exact (next_message_encoded f bs r I Hbs)|].
    unfold mesh_read_step. cbn [ty buffer].
    rewrite (decode_encoded_frame f bs I (peer_present_body_roundtrip (inner f) Hk) Hbs).
    reflexivity.
Qed.

Lemma mesh_link_roundtrip_witness :
  (exists out, write_step (key_of 1) true (WSendPacket (key_of 2) (key_of 3) [1; 2]) = WEmit out /\
     exists m, next_message (out ++ []) = Ok (AMessage m, []) /\
       mesh_read_step 0 m = RPush (SSendPacket (key_of 2) (key_of 3) [1; 2])) /\
  (exists out, write_step (key_of 1) false (WPeerPresent (key_of 4)) = WEmit out /\
     exists m, next_message (out ++ []) = Ok (AMessage m, []) /\
       mesh_read_step 0 m = RPush (SPeerPresent (key_of 4) 0)).
Proof.
  apply (mesh_link_roundtrip (key_of 1) (key_of 2) (key_of 3) (key_of 4) false [1; 2] [] 0);
    [reflexivity | reflexivity | reflexivity | keys_differ | vm_compute; reflexivity].
Defined.

(** X16: every packet for a key a mesh peer announced, when that key was
    not yet registered in the clients directory, ends in a panic of the
    mesh client's writer. The mesh client reads the announcement of a
    well-formed key and pushes it; the command loop registers the key to
    the mesh client's own (open) writer; a packet to that key is then
    queued on that writer, which panics on any packet (the [todo!]); it
    also panics when its channel is closed. *)
Theorem mesh_announced_key_panics (st : DerpService) (net : Writers) (w : Writer)
    (sender : Sink) (k src : PublicKey) (payload bs : bytes) :
  well_formed k -> peers_sinks st !! k = None -> net !! sender = Some w -> w_open w = true ->
  encode_frame (mkFrame PeerPresentT {| pp_public_key := k |}) = Some bs ->
  let st1 := set_peers_sinks st (<[k := sender]> (peers_sinks st)) in
  mesh_read_step sender {| ty := PeerPresentT; buffer := bs |} = RPush (SPeerPresent k sender) /\
  command_loop_step st net (Some (SPeerPresent k sender)) = Next st1 net [] /\
  command_loop_step st1 net (Some (SSendPacket src k payload)) =
    Next st1 (<[sender := {| w_pk := w_pk w; w_can_mesh := w_can_mesh w; w_open := true;
                            w_queue := w_queue w ++ [WSendPacket src k payload] |}]> net) [] /\
  mesh_write_step (Some (WSendPacket src k payload)) = WPanic /\
  mesh_write_step None = WPanic.
Proof.
  intros Hwf Hk Hw Ho Hbs st1.
  destruct (peer_present_then_send st net w sender k src payload Hk Hw Ho) as [H1 H2].
  split.
  - unfold mesh_read_step. cbn [ty buffer].
    rewrite (decode_encoded_frame (mkFrame PeerPresentT {| pp_public_key := k |}) bs I
               (peer_present_body_roundtrip {| pp_public_key := k |} Hwf) Hbs).
    reflexivity.
  - split; [exact H1|]. split; [exact H2|]. split; reflexivity.
Qed.

Lemma mesh_announced_key_panics_witness :
  let bs := default [] (encode_frame (mkFrame PeerPresentT {| pp_public_key := key_of 5 |})) in
  let st1 := set_peers_sinks svc_mesh_only (<[key_of 5 := 0%nat]> (peers_sinks svc_mesh_only)) in
  mesh_read_step 0 {| ty := PeerPresentT; buffer := bs |} = RPush (SPeerPresent (key_of 5) 0) /\
  command_loop_step svc_mesh_only net_mesh_only (Some (SPeerPresent (key_of 5) 0)) =
    Next st1 net_mesh_only [] /\
  command_loop_step st1 net_mesh_only (Some (SSendPacket (key_of 1) (key_of 5) [1])) =
    Next st1 (<[0%nat := {| w_pk := key_of 3; w_can_mesh := true; w_open := true;
                            w_queue := [WSendPacket (key_of 1) (key_of 5) [1]] |}]> net_mesh_only) [] /\
  mesh_write_step (Some (WSendPacket (key_of 1) (key_of 5) [1])) = WPanic /\
  mesh_write_step None = WPanic.
Proof.
  intros bs.
  refine (mesh_announced_key_panics svc_mesh_only net_mesh_only (open_writer (key_of 3) true) 0
            (key_of 5) (key_of 1) [1] bs _ _ _ _ _);
    [reflexivity | vm_compute; reflexivity | vm_compute; reflexivity | reflexivity | reflexivity].
Defined.

Lemma write_loop_app_eq (pk : PublicKey) (cm : bool) (q1 q2 : list WriteLoopCommands) :
  write_loop pk cm (q1 ++ q2) =
  match write_loop pk cm q1 with
  | (outs, None) => let '(outs2, e) := write_loop pk cm q2 in (outs ++ outs2, e)
  | (outs, Some e) => (outs, Some e)
  end.
Proof.
  induction q1 as [|c q1 IH]; simpl.
  - by destruct (write_loop pk cm q2).
  - destruct (write_step pk cm c); try reflexivity.
    rewrite IH. destruct (write_loop pk cm q1) as [outs [e|]]; [reflexivity|].
    by destruct (write_loop pk cm q2).
Qed.

(** X18: a [Stop] command ends the writer: nothing queued after it is
    written, and the writer has stopped (exited, or panicked before). *)
Theorem write_loop_stop (pk : PublicKey) (can_mesh : bool) (q1 q2 : list WriteLoopCommands) :
  write_loop pk can_mesh (q1 ++ WStop :: q2) = write_loop pk can_mesh (q1 ++ [WStop]) /\
  snd (write_loop pk can_mesh (q1 ++ [WStop])) <> None.
Proof.
  rewrite !write_loop_app_eq.
  destruct (write_loop pk can_mesh q1) as [outs [e|]]; simpl; split; congruence.
Qed.

(** ** The routing service, [service.rs] *)

(** X19: [Stop] ends the command loop as the closing of its channel does:
    the commands after it are never processed, and the run is the run on
    the commands before it. *)
Theorem command_loop_stop (st : DerpService) (net : Writers) (cs1 cs2 : list ServiceCommand) :
  command_loop st net (cs1 ++ Stop :: cs2) = command_loop st net cs1.
Proof.
  revert st net. induction cs1 as [|c cs1 IH]; intros st net.
  - reflexivity.
  - cbn [app command_loop].
    destruct (command_loop_step st net (Some c)); [|reflexivity]. by rewrite IH.
Qed.

(** X20: a successful registration starts a writer on a fresh sink, with
    the [can_mesh] of the admission, and points the client's key at it,
    replacing the sink of an earlier registration of the same key (whose
    writer stays as it was); the mesh directory and the mesh key are
    unchanged, and one presence announcement of the new key goes to each
    mesh peer. A registration fails only on a disconnected socket or a mesh
    key mismatch. *)
Theorem add_new_client_ok (st : DerpService) (net : Writers) (connected : bool)
    (pk : PublicKey) (mk : option string) :
  match add_new_client st net connected pk mk with
  | Ok (st', net', sp) =>
      exists sink can_mesh,
        connected = true /\ resolve_can_mesh (meshkey st) mk = Ok can_mesh /\
        net !! sink = None /\ net' = <[sink := open_writer pk can_mesh]> net /\
        peers_sinks st' = <[pk := sink]> (peers_sinks st) /\
        mesh st' = mesh st /\ meshkey st' = meshkey st /\
        length sp = size (mesh st) /\
        (forall x, x ∈ sp <-> exists k s, mesh st !! k = Some s /\ x = (s, WPeerPresent pk))
  | Err _ => connected = false \/ exists e, resolve_can_mesh (meshkey st) mk = Err e
  end.
Proof.
  unfold add_new_client.
  destruct (resolve_can_mesh (meshkey st) mk) as [cm|e] eqn:Hr; cbn [rbind]; [|right; eauto].
  destruct connected; cbn [negb]; [|by left].
  exists (fresh (dom net)), cm.
  split; [done|]. split; [done|]. split.
  { apply not_elem_of_dom. apply is_fresh. }
  split; [done|]. split; [done|]. split; [done|]. split; [done|].
  unfold notify_all_mesh_peers. cbn [mesh set_peers_sinks]. split.
  - rewrite length_fmap. apply length_map_to_list.
  - intros x. rewrite list_elem_of_fmap. split.
    + intros ([k s] & -> & Hin). apply elem_of_map_to_list in Hin. eauto.
    + intros (k & s & Hk & ->). exists (k, s). split; [done|]. by apply elem_of_map_to_list.
Qed.

Lemma mesh_client_command_step (st st' : DerpService) (net net' : Writers) (sp : Spawned)
    (c : ServiceCommand) :
  mesh_client_event (ECommand c) = true ->
  command_loop_step st net (Some c) = Next st' net' sp ->
  mesh st' = mesh st /\ meshkey st' = meshkey st /\
  (forall k, is_Some (peers_sinks st' !! k) ->
             is_Some (peers_sinks st !! k) \/ exists s, c = SPeerPresent k s).
Proof.
  intros Hc Hstep. destruct c as [|src tgt p|pk sink|pk sink]; try discriminate Hc.
  - cbn in Hstep. destruct (peers_sinks st !! tgt) as [sink|].
    + destruct (send net sink _); [|discriminate Hstep].
      injection Hstep as <- _ _. split; [done|]. split; [done|]. by left.
    + injection Hstep as <- _ _. split; [done|]. split; [done|]. by left.
  - cbn in Hstep. destruct (peers_sinks st !! pk) as [s'|] eqn:Hpk.
    + injection Hstep as <- _ _. split; [done|]. split; [done|]. by left.
    + injection Hstep as <- _ _. cbn [set_peers_sinks peers_sinks mesh meshkey].
      split; [done|]. split; [done|]. intros k Hk.
      destruct (decide (k = pk)) as [->|Hne]; [right; eauto|].
      rewrite lookup_insert_ne in Hk by congruence. by left.
Qed.

(** What [new_mesh_loop] leaves from [st] after the events [evs]. *)
Definition new_mesh_inv (st st' : DerpService) (evs : list NewEvent) : Prop :=
  (EMeshPeer Unresolved ∉ evs) /\ meshkey st' = meshkey st /\
  (forall k, is_Some (mesh st' !! k) <->
             is_Some (mesh st !! k) \/ exists s, EMeshPeer (Started k s) ∈ evs) /\
  (forall k s, mesh st' !! k = Some s ->
               mesh st !! k = Some s \/ EMeshPeer (Started k s) ∈ evs) /\
  (forall k, is_Some (peers_sinks st' !! k) ->
             is_Some (peers_sinks st !! k) \/ exists s, ECommand (SPeerPresent k s) ∈ evs).

Lemma new_mesh_inv_nil (st : DerpService) : new_mesh_inv st st [].
Proof.
  split; [apply not_elem_of_nil|]. split; [done|]. split.
  - intros k. split; [by left|]. intros [H|(s & Hs)]; [done|].
    by apply not_elem_of_nil in Hs.
  - split; [intros k s Hs; by left|]. intros k Hk. by left.
Qed.

Lemma new_mesh_inv_cons (st st1 st' : DerpService) (e : NewEvent) (evs : list NewEvent) :
  e <> EMeshPeer Unresolved ->
  meshkey st1 = meshkey st ->
  (forall k, is_Some (mesh st1 !! k) <->
             is_Some (mesh st !! k) \/ exists s, e = EMeshPeer (Started k s)) ->
  (forall k s, mesh st1 !! k = Some s -> mesh st !! k = Some s \/ e = EMeshPeer (Started k s)) ->
  (forall k, is_Some (peers_sinks st1 !! k) ->
             is_Some (peers_sinks st !! k) \/ exists s, e = ECommand (SPeerPresent k s)) ->
  new_mesh_inv st1 st' evs -> new_mesh_inv st st' (e :: evs).
Proof.
  intros Hne Hk Hdom1 Hval1 Hps1 (Hu & Hk' & Hdom & Hval & Hps).
  split; [rewrite not_elem_of_cons; split; [congruence|exact Hu]|].
  split; [congruence|]. split; [|split].
  - intros k. rewrite Hdom, Hdom1. setoid_rewrite elem_of_cons. naive_solver.
  - intros k s Hs. rewrite elem_of_cons.
    destruct (Hval k s Hs) as [H|H]; [|by right; right].
    destruct (Hval1 k s H) as [H'|H']; [by left|]. right; left; by symmetry.
  - intros k Hk1. setoid_rewrite elem_of_cons.
    destruct (Hps k Hk1) as [H|(s & H)]; [|right; eauto].
    destruct (Hps1 k H) as [H'|(s & H')]; [by left|]. right. exists s. left. by symmetry.
Qed.

Lemma new_mesh_inv_skip (st st' : DerpService) (e : NewEvent) (evs : list NewEvent) :
  e <> EMeshPeer Unresolved -> (forall k s, e <> EMeshPeer (Started k s)) ->
  new_mesh_inv st st' evs -> new_mesh_inv st st' (e :: evs).
Proof.
  intros Hne Hns Hinv. apply (new_mesh_inv_cons st st); [exact Hne|done| |intros; by left
    |intros; by left|exact Hinv].
  intros k. split; [by left|]. intros [H|(s & He)]; [exact H|]. by destruct (Hns k s He).
Qed.

Lemma new_mesh_loop_spec (st : DerpService) (net : Writers) (running : bool)
    (evs : list NewEvent) :
  forallb mesh_client_event evs = true ->
  match new_mesh_loop st net running evs with
  | Ok st' => new_mesh_inv st st' evs
  | Err _ => EMeshPeer Unresolved ∈ evs
  end.
Proof.
  revert st net running. induction evs as [|e evs IH]; intros st net running Hall.
  - apply new_mesh_inv_nil.
  - cbn [forallb] in Hall. apply andb_prop in Hall as [He Hall].
    (* the run from [st] itself, the event [e] changing nothing *)
    assert (Hskip : forall running1, e <> EMeshPeer Unresolved ->
      (forall k s, e <> EMeshPeer (Started k s)) ->
      match new_mesh_loop st net running1 evs with
      | Ok st' => new_mesh_inv st st' (e :: evs)
      | Err _ => EMeshPeer Unresolved ∈ e :: evs
      end).
    { intros running1 Hne Hns. specialize (IH st net running1 Hall).
      destruct (new_mesh_loop st net running1 evs) as [st'|err].
      - by apply new_mesh_inv_skip.
      - apply elem_of_cons. by right. }
    assert (Hc : forall c k s, ECommand c <> EMeshPeer (Started k s)) by discriminate.
    destruct e as [c|[| |pk s]]; cbn [new_mesh_loop].
    + destruct running; [|apply Hskip; [discriminate|apply Hc]].
      destruct (command_loop_step st net (Some c)) as [st1 net1 sp|r] eqn:Hstep;
        [|apply Hskip; [discriminate|apply Hc]].
      destruct (mesh_client_command_step st st1 net net1 sp c He Hstep) as (Hm & Hk & Hp).
      specialize (IH st1 net1 true Hall).
      destruct (new_mesh_loop st1 net1 true evs) as [st'|err];
        [|apply elem_of_cons; by right].
      apply (new_mesh_inv_cons st st1); [discriminate|exact Hk| | | |exact IH].
      * intros k. rewrite Hm. split; [by left|]. intros [H|(s & Hs)]; [exact H|discriminate Hs].
      * intros k s Hs. left. by rewrite <- Hm.
      * intros k Hk1. destruct (Hp k Hk1) as [H|(s & ->)]; [by left|]. right. eauto.
    + apply elem_of_cons. by left.
    + apply Hskip; [discriminate|intros ??; discriminate].
    + specialize (IH (set_mesh st (<[pk := s]> (mesh st))) net running Hall).
      destruct (new_mesh_loop _ net running evs) as [st'|err];
        [|apply elem_of_cons; by right].
      apply (new_mesh_inv_cons st (set_mesh st (<[pk := s]> (mesh st))));
        [discriminate|done| | |intros k Hk1; left; exact Hk1|exact IH]; cbn [set_mesh mesh].
      * intros k. destruct (decide (k = pk)) as [->|Hne].
        -- rewrite lookup_insert_eq. split; [intros _; right; eauto|done].
        -- rewrite lookup_insert_ne by congruence. split; [by left|].
           intros [H|(s' & H)]; [done|congruence].
      * intros k s' Hs'. destruct (decide (k = pk)) as [->|Hne].
        -- rewrite lookup_insert_eq in Hs'. injection Hs' as <-. by right.
        -- rewrite lookup_insert_ne in Hs' by congruence. by left.
Qed.

(** X21: starting the service. The command loop is spawned first and
    runs while the mesh peers start, so the clients directory need not be
    empty when [new] returns: it holds only keys that a started mesh
    client announced ([PeerPresent]). The mesh directory holds exactly the
    started mesh peers: a key is in it exactly when some mesh peer with
    that key started, and then at the writer of one of them. Without a mesh
    key the configured mesh peers are ignored, both directories are empty
    and the start never fails; with one, it fails exactly when some mesh
    peer address does not resolve, a peer that fails to start being only
    skipped. *)
Theorem new_service_mesh_peers (mk : option string) (net : Writers) (evs : list NewEvent) :
  forallb mesh_client_event evs = true ->
  match new_service mk net evs with
  | Ok st =>
      meshkey st = mk /\
      (mk <> None -> EMeshPeer Unresolved ∉ evs) /\
      (forall k, is_Some (mesh st !! k) <->
                 mk <> None /\ exists s, EMeshPeer (Started k s) ∈ evs) /\
      (forall k s, mesh st !! k = Some s -> EMeshPeer (Started k s) ∈ evs) /\
      (forall k, is_Some (peers_sinks st !! k) ->
                 mk <> None /\ exists s, ECommand (SPeerPresent k s) ∈ evs)
  | Err _ => mk <> None /\ EMeshPeer Unresolved ∈ evs
  end.
Proof.
  intros Hall. unfold new_service. destruct mk as [key|].
  - pose proof (new_mesh_loop_spec {| peers_sinks := ∅; mesh := ∅; meshkey := Some key |}
                  net true evs Hall) as Hspec.
    destruct (new_mesh_loop _ net true evs) as [st|e]; [|by split].
    destruct Hspec as (Hu & Hk & Hdom & Hval & Hps). cbn [peers_sinks meshkey mesh] in *.
    split; [done|]. split; [by intros _|]. split; [|split].
    + intros k. rewrite Hdom, lookup_empty. split.
      * intros [H|H]; [by destruct H|]. by split.
      * intros [_ H]. by right.
    + intros k s Hs. destruct (Hval k s Hs) as [H|H]; [|exact H].
      by rewrite lookup_empty in H.
    + intros k Hk1. destruct (Hps k Hk1) as [H|H]; [|by split].
      rewrite lookup_empty in H. by destruct H.
  - cbn [peers_sinks meshkey mesh]. split; [done|]. split; [done|]. split; [|split].
    + intros k. rewrite lookup_empty. split; [by intros []|]. by intros [? _].
    + intros k s Hs. by rewrite lookup_empty in Hs.
    + intros k Hk1. rewrite lookup_empty in Hk1. by destruct Hk1.
Qed.

Lemma new_service_mesh_peers_witness :
  forallb mesh_client_event
    [EMeshPeer (Started (key_of 3) 0); ECommand (SPeerPresent (key_of 5) 0)] = true /\
  match new_service (Some "k") ∅
          [EMeshPeer (Started (key_of 3) 0); ECommand (SPeerPresent (key_of 5) 0)] with
  | Ok st =>
      meshkey st = Some "k" /\
      (Some "k" <> None ->
       EMeshPeer Unresolved ∉
         [EMeshPeer (Started (key_of 3) 0); ECommand (SPeerPresent (key_of 5) 0)]) /\
      (forall k, is_Some (mesh st !! k) <->
                 Some "k" <> None /\ exists s, EMeshPeer (Started k s) ∈
                   [EMeshPeer (Started (key_of 3) 0); ECommand (SPeerPresent (key_of 5) 0)]) /\
      (forall k s, mesh st !! k = Some s -> EMeshPeer (Started k s) ∈
                   [EMeshPeer (Started (key_of 3) 0); ECommand (SPeerPresent (key_of 5) 0)]) /\
      (forall k, is_Some (peers_sinks st !! k) ->
                 Some "k" <> None /\ exists s, ECommand (SPeerPresent k s) ∈
                   [EMeshPeer (Started (key_of 3) 0); ECommand (SPeerPresent (key_of 5) 0)])
  | Err _ => Some "k" <> None /\ EMeshPeer Unresolved ∈
               [EMeshPeer (Started (key_of 3) 0); ECommand (SPeerPresent (key_of 5) 0)]
  end.
Proof.
  split; [reflexivity|].
  apply new_service_mesh_peers. reflexivity.
Defined.

(** With a mesh key, a mesh client that starts and announces a key before
    [new] returns leaves that key in the clients directory. *)
Lemma new_service_mesh_client_announces :
  match new_service (Some "k") ∅
          [EMeshPeer (Started (key_of 3) 0); ECommand (SPeerPresent (key_of 5) 0)] with
  | Ok st => peers_sinks st !! key_of 5 = Some 0%nat
  | Err _ => False
  end.
Proof. vm_compute. reflexivity. Qed.

(** ** The handshake, [proto/mod.rs] *)

Lemma utf8_valid_ascii (v : bytes) : Forall (fun b => b < 128) v -> utf8_valid v = true.
Proof.
  induction 1 as [|b v Hb _ IH]; [done|]. cbn [utf8_valid].
  by rewrite (proj2 (Z.ltb_lt _ _) Hb).
Qed.

Lemma lowercase_ascii (v : bytes) :
  Forall (fun b => b < 128) (to_ascii_lowercase v) -> Forall (fun b => b < 128) v.
Proof.
  unfold to_ascii_lowercase. rewrite Forall_map. intros H.
  apply (Forall_impl _ _ _ H). intros b.
  destruct ((65 <=? b) && (b <=? 90)) eqn:E; [|done].
  apply andb_prop in E as [_ E]. apply Z.leb_le in E. lia.
Qed.

Lemma lowercase_eq_valid (v : bytes) (s : string) :
  Forall (fun b => b < 128) (string_bytes s) ->
  to_ascii_lowercase v = string_bytes s -> utf8_valid v = true.
Proof.
  intros Hs Hv. apply utf8_valid_ascii, lowercase_ascii. by rewrite Hv.
Qed.

Ltac ascii_string := vm_compute; repeat constructor.

(** X22: [validate_headers] accepts a header list exactly when every header
    named [Upgrade] has the value [websocket] or [derp] and every header
    named [Connection] has the value [upgrade], values compared without
    case and names compared exactly (a header [upgrade] is not checked). A
    list without such headers, the empty list included, is accepted. *)
Theorem validate_headers_ok (hs : list HttpHeader) :
  validate_headers hs = Ok () <->
  Forall (fun h =>
    (h_name h = "Upgrade" ->
       to_ascii_lowercase (h_value h) = string_bytes "websocket" \/
       to_ascii_lowercase (h_value h) = string_bytes "derp") /\
    (h_name h = "Connection" ->
       to_ascii_lowercase (h_value h) = string_bytes "upgrade")) hs.
Proof.
  induction hs as [|h hs IH]; cbn [validate_headers].
  - split; [constructor|done].
  - rewrite Forall_cons, <- IH. unfold from_utf8.
    destruct (String.eqb_spec (h_name h) "Upgrade") as [Hu|Hu];
      destruct (String.eqb_spec (h_name h) "Connection") as [Hc|Hc].
    + rewrite Hu in Hc. discriminate.
    + destruct (utf8_valid (h_value h)) eqn:U; cbn [rbind].
      * destruct (bool_decide_reflect (to_ascii_lowercase (h_value h) = string_bytes "websocket"))
          as [E1|E1];
          destruct (bool_decide_reflect (to_ascii_lowercase (h_value h) = string_bytes "derp"))
          as [E2|E2]; cbn [orb rbind].
        1-3: split; [intros Hv; split; [split; intros Hn; [tauto|contradiction]|exact Hv]|tauto].
        split; [discriminate|]. intros [[Hup _] _]. destruct (Hup Hu); contradiction.
      * split; [discriminate|]. intros [[Hup _] _]. exfalso.
        destruct (Hup Hu) as [E|E]; apply lowercase_eq_valid in E; try congruence; ascii_string.
    + destruct (utf8_valid (h_value h)) eqn:U; cbn [rbind].
      * destruct (bool_decide_reflect (to_ascii_lowercase (h_value h) = string_bytes "upgrade"))
          as [E1|E1]; cbn [rbind].
        -- split; [intros Hv; split; [split; intros Hn; [contradiction|exact E1]|exact Hv]|tauto].
        -- split; [discriminate|]. intros [[_ Hcon] _]. destruct (E1 (Hcon Hc)).
      * split; [discriminate|]. intros [[_ Hcon] _]. exfalso.
        apply lowercase_eq_valid in Hcon; [congruence|ascii_string|exact Hc].
    + cbn [rbind].
      split; [intros Hv; split; [split; intros Hn; contradiction|exact Hv]|tauto].
Qed.

Lemma read_buf_1024_short (bs extra : bytes) :
  (length bs <= 1024)%nat -> exists pad, read_buf_1024 (bs ++ extra) = bs ++ pad.
Proof.
  intros Hl. unfold read_buf_1024. rewrite take_app, (take_ge bs) by lia.
  eexists. by rewrite <- app_assoc.
Qed.

Lemma read_buf_1024_long (d : bytes) : (1024 <= length d)%nat -> read_buf_1024 d = take 1024 d.
Proof.
  intros Hl. unfold read_buf_1024. replace (1024 - length d)%nat with 0%nat by lia.
  apply app_nil_r.
Qed.

Lemma get_frame_type_encoded {T} `{Encode T} (f : Frame T) (bs r : bytes) :
  known (frame_type f) -> encode_frame f = Some bs -> get_frame_type (bs ++ r) = frame_type f.
Proof.
  intros Hk Hbs. apply encode_frame_some in Hbs as [_ ->].
  unfold get_frame_type. cbn [head app]. rewrite decode_frame_type_cons.
  by rewrite frame_type_roundtrip.
Qed.

Lemma get_frame_type_take (n : nat) (l : bytes) :
  get_frame_type (take (S n) l) = get_frame_type l.
Proof. by destruct l. Qed.

Lemma decode_frame_truncated {T} `{Encode T} `{Decode T} (f : Frame T) (bs : bytes) (n : nat) :
  encode_frame f = Some bs -> (5 <= n < length bs)%nat ->
  exists e, decode_frame (T:=T) (take n bs) = Err e.
Proof.
  intros Hbs Hn. apply encode_frame_some in Hbs as [Hlt ->].
  set (body := encode (inner f)) in *.
  cbn [length] in Hn. rewrite length_app in Hn.
  assert (Hu : length (u32_to_be_bytes (Z.of_nat (length body))) = 4%nat) by reflexivity.
  rewrite Hu in Hn.
  destruct n as [|n]; [lia|]. cbn [take]. rewrite take_app, Hu, take_ge by (rewrite Hu; lia).
  unfold decode_frame. rewrite decode_frame_type_cons. cbn [rbind].
  unfold decode_size_wrapper. rewrite decode_u32_app by lia. cbn [rbind].
  unfold fill_buf. rewrite length_take, Nat2Z.id.
  replace (Nat.min (n - 4) (length body) <? length body)%nat with true
    by (symmetry; apply Nat.ltb_lt; lia).
  eauto.
Qed.

(** X23: the client's [read_server_key] reads a [ServerKey] frame however
    many bytes follow it in its 1024-byte buffer: it returns the key the
    frame carries when its magic is [MAGIC], and the error "Invalid magic"
    otherwise. *)
Theorem read_server_key_frame (sk : ServerKey) (bs extra : bytes) :
  well_formed sk -> encode_frame (mkFrame ServerKeyT sk) = Some bs ->
  read_server_key (read_buf_1024 (bs ++ extra)) =
    if bool_decide (sk_magic sk = MAGIC) then Ok (sk_public_key sk)
    else Err (Anyhow "Invalid magic").
Proof.
  intros Hwf Hbs.
  assert (Hlen : length bs = 45%nat).
  { pose proof (encode_frame_some _ _ Hbs) as [_ ->]. destruct Hwf as [Hm Hk].
    unfold well_formed, wf_public_key in Hk.
    change (encode (inner (mkFrame ServerKeyT sk))) with (sk_magic sk ++ pk_bytes (sk_public_key sk)).
    cbn [length]. rewrite !length_app, Hm, Hk. reflexivity. }
  destruct (read_buf_1024_short bs extra) as [pad ->]; [lia|].
  unfold read_server_key.
  rewrite (get_frame_type_encoded (mkFrame ServerKeyT sk) bs pad I Hbs).
  rewrite (frame_roundtrip (mkFrame ServerKeyT sk) bs pad I (server_key_body_roundtrip sk Hwf) Hbs).
  cbn [inner rbind]. unfold validate_magic. by destruct (bool_decide _).
Qed.

Lemma read_server_key_frame_witness :
  read_server_key (read_buf_1024 (default [] (write_server_key (key_of 7)) ++ [1; 2; 3])) =
    if bool_decide (MAGIC = MAGIC) then Ok (key_of 7) else Err (Anyhow "Invalid magic").
Proof.
  apply (read_server_key_frame (server_key_new (key_of 7))); [split; reflexivity | reflexivity].
Defined.

(** X24: the server's [read_client_info] decodes a [ClientInfo] frame from
    its 1024-byte buffer: a frame of at most 1024 bytes is read whatever
    follows it, and its result is that of [ClientInfo::complete] on the
    frame's body; a longer frame (a ciphertext of more than 963 bytes) is
    cut at 1024 bytes and always fails with "Decode error". *)
Theorem read_client_info_buffer
    (salsa_box_decrypt : PublicKey -> SecretKey -> bytes -> bytes -> option bytes)
    (from_slice : bytes -> option ClientInfoPayload)
    (ci : ClientInfo) (sk : SecretKey) (bs extra : bytes) :
  well_formed ci -> encode_frame (mkFrame ClientInfoT ci) = Some bs ->
  read_client_info salsa_box_decrypt from_slice (read_buf_1024 (bs ++ extra)) sk =
    if (length bs <=? 1024)%nat then
      (let? (pk, payload) := complete salsa_box_decrypt from_slice ci sk in
       Ok (pk, if String.eqb (payload_meshkey payload) "" then None
               else Some (payload_meshkey payload)))
    else Err (Anyhow "Decode error").
Proof.
  intros Hwf Hbs.
  destruct (Nat.leb_spec (length bs) 1024) as [Hle|Hgt].
  - destruct (read_buf_1024_short bs extra Hle) as [pad ->].
    unfold read_client_info.
    rewrite (get_frame_type_encoded (mkFrame ClientInfoT ci) bs pad I Hbs).
    rewrite (frame_roundtrip (mkFrame ClientInfoT ci) bs pad I
               (client_info_body_roundtrip ci Hwf) Hbs).
    reflexivity.
  - rewrite read_buf_1024_long by (rewrite length_app; lia).
    rewrite take_app_le by lia.
    unfold read_client_info. rewrite get_frame_type_take.
    rewrite <- (app_nil_r bs) at 1.
    rewrite (get_frame_type_encoded (mkFrame ClientInfoT ci) bs [] I Hbs).
    destruct (decode_frame_truncated (mkFrame ClientInfoT ci) bs 1024 Hbs) as [e He]; [lia|].
    rewrite He. reflexivity.
Qed.

Lemma read_client_info_buffer_witness :
  read_client_info open_plain from_slice_version_3
    (read_buf_1024 (client_info_version_3 ++ [0; 0])) server_secret =
    if (length client_info_version_3 <=? 1024)%nat then
      (let? (pk, payload) :=
         complete open_plain from_slice_version_3 (inner client_info_frame_version_3) server_secret in
       Ok (pk, if String.eqb (payload_meshkey payload) "" then None
               else Some (payload_meshkey payload)))
    else Err (Anyhow "Decode error").
Proof.
  apply (read_client_info_buffer open_plain from_slice_version_3
           (inner client_info_frame_version_3)); [split; reflexivity | reflexivity].
Defined.
